(** * OpenCaption: chunked transcription stitching and caption-cue assembly

    A shallow embedding of [src/main.go]: the windower [chunkPCM], the
    time re-basing loop of [main], [dedupeOverlap], the cue builder
    ([wrapWords], [softTruncate], [wordsJoinRemaining], [segmentsToCues],
    [mergeShortCues]) and the caption writers ([tsVTT], [tsSRT],
    [writeVTT], [writeSRT]).

    Conventions of the embedding.
    - Go [int] is a 64-bit two's complement integer: it is a [Z], and
      arithmetic on user-supplied integers goes through [wrap64].
      Lengths ([len]) are at most the size of the address space, so sums of
      a few lengths and list positions are written without a wrap.
    - Go [string] is a byte sequence: [gostring := list ascii]; [len] is the
      byte length, as in Go.
    - [float32] and [float64] are IEEE-754 binary32 and binary64, computed
      with the Standard Library's [SpecFloat] (round to nearest, ties to
      even).
    - A run-time panic (slice bounds out of range) or a loop that never
      ends is [None]. *)

From Stdlib Require Import ZArith NArith Zpower List Bool Ascii String Lia.
From Stdlib Require Import Floats.SpecFloat.
Import ListNotations.
Local Open Scope Z_scope.

(* ================================================================== *)
(** * Go integers *)

Module GoInt.

Definition min_int : Z := - 2 ^ 63.
Definition max_int : Z := 2 ^ 63 - 1.

(** Two's complement wrap-around of a mathematical integer to [int]. *)
Definition wrap64 (z : Z) : Z := (z + 2 ^ 63) mod 2 ^ 64 - 2 ^ 63.

Definition in_int (z : Z) : Prop := min_int <= z <= max_int.

Definition add (a b : Z) : Z := wrap64 (a + b).
Definition sub (a b : Z) : Z := wrap64 (a - b).
Definition mul (a b : Z) : Z := wrap64 (a * b).

End GoInt.

(* ================================================================== *)
(** * Go strings and slices *)

Definition gostring := list ascii.

(** String literals of the examples. *)
Definition go (s : string) : gostring := list_ascii_of_string s.

(** Go's [len]. *)
Definition len {A : Type} (l : list A) : Z := Z.of_nat (List.length l).

(** Go's [l[lo:hi]]; [None] is the bounds panic. *)
Definition slice {A : Type} (l : list A) (lo hi : Z) : option (list A) :=
  if (0 <=? lo) && (lo <=? hi) && (hi <=? len l)
  then Some (firstn (Z.to_nat (hi - lo)) (skipn (Z.to_nat lo) l))
  else None.

Fixpoint streqb (a b : gostring) : bool :=
  match a, b with
  | [], [] => true
  | x :: a', y :: b' => Ascii.eqb x y && streqb a' b'
  | _, _ => false
  end.

Definition isEmpty (s : gostring) : bool :=
  match s with [] => true | _ => false end.

Module Strings.

Definition byte (c : ascii) : N := N_of_ascii c.

(** The ASCII white space of Go's [asciiSpace] table:
    tab, newline, vertical tab, form feed, carriage return, space. *)
Definition asciiSpace (b : N) : bool :=
  ((9 <=? b) && (b <=? 13) || (b =? 32))%N.

(** Width in bytes of the white-space rune that starts [s], 0 when [s]
    does not start with one.  These are the UTF-8 encodings of the runes
    for which [unicode.IsSpace] holds: the ASCII ones, U+0085, U+00A0,
    U+1680, U+2000..U+200A, U+2028, U+2029, U+202F, U+205F, U+3000.
    Every encoding starts with a byte that is not a continuation byte and
    goes on with continuation bytes only, so an encoding found at a
    position is the rune Go decodes there. *)
Definition spaceWidth (s : gostring) : nat :=
  match s with
  | [] => O
  | c0 :: r =>
    let b0 := byte c0 in
    if asciiSpace b0 then 1%nat else
    match r with
    | [] => O
    | c1 :: r1 =>
      let b1 := byte c1 in
      if ((b0 =? 0xC2) && ((b1 =? 0x85) || (b1 =? 0xA0)))%N then 2%nat else
      match r1 with
      | [] => O
      | c2 :: _ =>
        let b2 := byte c2 in
        if ((b0 =? 0xE1) && (b1 =? 0x9A) && (b2 =? 0x80))%N then 3%nat
        else if ((b0 =? 0xE2) && (b1 =? 0x80) &&
                 ((0x80 <=? b2) && (b2 <=? 0x8A) || (b2 =? 0xA8) ||
                  (b2 =? 0xA9) || (b2 =? 0xAF)))%N then 3%nat
        else if ((b0 =? 0xE2) && (b1 =? 0x81) && (b2 =? 0x9F))%N then 3%nat
        else if ((b0 =? 0xE3) && (b1 =? 0x80) && (b2 =? 0x80))%N then 3%nat
        else O
      end
    end
  end.

(** The same on the reversed string: width of the white-space rune that
    ends the string whose reversal is [rs]. *)
Definition spaceWidthRev (rs : gostring) : nat :=
  match rs with
  | [] => O
  | c :: _ =>
    if asciiSpace (byte c) then 1%nat
    else if (spaceWidth (rev (firstn 2 rs)) =? 2)%nat then 2%nat
    else if (spaceWidth (rev (firstn 3 rs)) =? 3)%nat then 3%nat
    else O
  end.

Definition flush (cur : gostring) : list gostring :=
  match cur with [] => [] | _ => [cur] end.

(** [strings.Fields]: [skip] counts the bytes of a white-space rune still
    to be passed over, [cur] is the field being read. *)
Fixpoint fieldsFrom (s : gostring) (skip : nat) (cur : gostring)
  : list gostring :=
  match s with
  | [] => flush cur
  | c :: r =>
    match skip with
    | S k => fieldsFrom r k cur
    | O =>
      match spaceWidth s with
      | O => fieldsFrom r O (cur ++ [c])
      | S k => flush cur ++ fieldsFrom r k []
      end
    end
  end.

Definition Fields (s : gostring) : list gostring := fieldsFrom s O [].

Fixpoint trimLeftFrom (s : gostring) (skip : nat) : gostring :=
  match s with
  | [] => []
  | _ :: r =>
    match skip with
    | S k => trimLeftFrom r k
    | O =>
      match spaceWidth s with
      | O => s
      | S k => trimLeftFrom r k
      end
    end
  end.

Fixpoint trimRevFrom (rs : gostring) (skip : nat) : gostring :=
  match rs with
  | [] => []
  | _ :: r =>
    match skip with
    | S k => trimRevFrom r k
    | O =>
      match spaceWidthRev rs with
      | O => rs
      | S k => trimRevFrom r k
      end
    end
  end.

(** [strings.TrimSpace]: leading, then trailing white-space runes. *)
Definition TrimSpace (s : gostring) : gostring :=
  rev (trimRevFrom (rev (trimLeftFrom s O)) O).

(** [strings.Join]. *)
Fixpoint Join (ws : list gostring) (sep : gostring) : gostring :=
  match ws with
  | [] => []
  | [w] => w
  | w :: ws' => w ++ sep ++ Join ws' sep
  end.

Fixpoint lastIndexFrom (s : gostring) (c : ascii) (i acc : Z) : Z :=
  match s with
  | [] => acc
  | x :: r => lastIndexFrom r c (i + 1) (if Ascii.eqb x c then i else acc)
  end.

(** [strings.LastIndex(s, sep)] for a one-byte [sep]; -1 when absent. *)
Definition LastIndex (s : gostring) (c : ascii) : Z :=
  lastIndexFrom s c 0 (-1).

(** [strings.ReplaceAll(s, old, new)] for one-byte [old] and [new]. *)
Definition ReplaceAll (s : gostring) (old new : ascii) : gostring :=
  map (fun c => if Ascii.eqb c old then new else c) s.

End Strings.

Definition space : ascii := " "%char.

(* ================================================================== *)
(** * Word wrapping (main.go, wrapWords and its helpers) *)

Definition fieldsPreservePunct (s : gostring) : list gostring :=
  Strings.Fields s.

Fixpoint wordsJoinRemainingFrom (all : list gostring) (from : gostring)
  (found : bool) : list gostring :=
  match all with
  | [] => []
  | w :: r =>
    if negb found && streqb w from then wordsJoinRemainingFrom r from true
    else if found then w :: wordsJoinRemainingFrom r from found
    else wordsJoinRemainingFrom r from found
  end.

Definition wordsJoinRemaining (all : list gostring) (from : gostring)
  : list gostring :=
  wordsJoinRemainingFrom all from false.

Definition softTruncate (s : gostring) (max : Z) : option gostring :=
  if len s <=? max then Some s
  else
    match slice s 0 max with
    | None => None
    | Some pre =>
      let idx := Strings.LastIndex pre space in
      if 0 <? idx then slice s 0 idx else Some pre
    end.

(** The tail of [wrapWords]: [lines[:maxLines]] when there are too many. *)
Definition capLines (lines : list gostring) (maxLines : Z)
  : option (list gostring) :=
  if maxLines <? len lines then slice lines 0 maxLines else Some lines.

(** The loop of [wrapWords] over the words still to read; [all] is the
    whole word list, which [wordsJoinRemaining] searches. *)
Fixpoint wrapLoop (all ws : list gostring) (maxChars maxLines : Z)
  (lines : list gostring) (curr : gostring) : option (list gostring) :=
  match ws with
  | [] =>
    capLines (if isEmpty curr then lines else lines ++ [curr]) maxLines
  | w :: ws' =>
    if isEmpty curr then wrapLoop all ws' maxChars maxLines lines w
    else if len curr + 1 + len w <=? maxChars
    then wrapLoop all ws' maxChars maxLines lines (curr ++ [space] ++ w)
    else
      let lines1 := lines ++ [curr] in
      let curr1 := w in
      if len lines1 =? maxLines - 1 then
        let rest := Strings.Join (wordsJoinRemaining all w) [space] in
        if isEmpty rest then capLines lines1 maxLines
        else
          let rest1 :=
            if 0 <? len curr1 then curr1 ++ [space] ++ rest else curr1 in
          match softTruncate rest1 maxChars with
          | None => None
          | Some last => capLines (lines1 ++ [last]) maxLines
          end
      else wrapLoop all ws' maxChars maxLines lines1 curr1
  end.

Definition wrapWords (s : gostring) (maxChars maxLines : Z)
  : option (list gostring) :=
  let words := fieldsPreservePunct s in
  wrapLoop words words maxChars maxLines [] [].

(* ================================================================== *)
(** * Floating point: binary32 and binary64 *)

Module Float.

Definition float32 := spec_float.
Definition float64 := spec_float.

Definition prec32 : Z := 24.
Definition emax32 : Z := 128.
Definition prec64 : Z := 53.
Definition emax64 : Z := 1024.

Definition add32 : float32 -> float32 -> float32 := SFadd prec32 emax32.
Definition sub32 : float32 -> float32 -> float32 := SFsub prec32 emax32.
Definition add64 : float64 -> float64 -> float64 := SFadd prec64 emax64.

(** [float32(n)] and [float64(n)] of an integer [n]. *)
Definition of_int32 (n : Z) : float32 := binary_normalize prec32 emax32 n 0 false.
Definition of_int64 (n : Z) : float64 := binary_normalize prec64 emax64 n 0 false.

(** [float64(x)] of a [float32]: the same real number, in binary64's
    canonical form. *)
Definition to64 (x : float32) : float64 :=
  match x with
  | S754_finite s m e =>
    binary_normalize prec64 emax64 (cond_Zopp s (Zpos m)) e s
  | _ => x
  end.

Definition abs64 : float64 -> float64 := SFabs.
Definition ltb64 : float64 -> float64 -> bool := SFltb.
(** [x >= y]. *)
Definition geb64 (x y : float64) : bool := SFleb y x.

(** The float64 constants 0.2 and 0.6 of the source: the doubles nearest
    to 2/10 and 6/10. *)
Definition c0_2 : float64 := SFdiv prec64 emax64 (of_int64 2) (of_int64 10).
Definition c0_6 : float64 := SFdiv prec64 emax64 (of_int64 6) (of_int64 10).

Definition zero32 : float32 := S754_zero false.

(** The float32 nearest to [n / d], for integers that float32 holds
    exactly (the literals of the examples). *)
Definition ratio32 (n d : Z) : float32 :=
  SFdiv prec32 emax32 (of_int32 n) (of_int32 d).

(** Integer part, towards zero, of a finite float. *)
Definition trunc (x : spec_float) : option Z :=
  match x with
  | S754_zero _ => Some 0
  | S754_finite s m e =>
    Some (cond_Zopp s (if 0 <=? e then Zpos m * 2 ^ e
                       else Zpos m / 2 ^ (- e)))
  | _ => None
  end.

(** [int(x)]: the truncation when it fits an [int]; Go leaves the other
    cases to the implementation, and this is the value amd64 gives. *)
Definition to_int (x : float32) : Z :=
  match trunc x with
  | Some z =>
    if (GoInt.min_int <=? z) && (z <=? GoInt.max_int) then z
    else GoInt.min_int
  | None => GoInt.min_int
  end.

End Float.

Import Float.

(* ================================================================== *)
(** * Data: segments and cues *)

Module Segment.
Record t := mk { Start : float32; End : float32; Text : gostring }.
End Segment.

Module Cue.
Record t := mk {
  Idx : Z;
  Start : float32;
  End : float32;
  Lines : list gostring;
  RawText : gostring
}.
End Cue.

(* ================================================================== *)
(** * Chunking (main.go, chunkPCM) *)

(** The loop of [chunkPCM]; [fuel] bounds the number of iterations. *)
Fixpoint chunkLoop {A : Type} (fuel : nat) (pcm : list A)
  (win ovl start : Z) (out : list (list A)) : option (list (list A)) :=
  match fuel with
  | O => None
  | S fuel' =>
    if start <? len pcm then
      let end0 := GoInt.add start win in
      let end1 := if len pcm <? end0 then len pcm else end0 in
      match slice pcm start end1 with
      | None => None
      | Some c =>
        let out1 := out ++ [c] in
        if end1 =? len pcm then Some out1
        else chunkLoop fuel' pcm win ovl
               (GoInt.add start (GoInt.sub win ovl)) out1
      end
    else Some out
  end.

(** A loop that returns does so after at most [len pcm] rounds that do not
    reach the end and one that does, so [S (length pcm)] rounds of fuel
    are enough whenever the stride is positive; with a stride of zero the
    source loops for ever, with a negative one the second slice panics. *)
Definition chunkPCM {A : Type} (pcm : list A) (sr windowSec overlapSec : Z)
  : option (list (list A)) :=
  let win := GoInt.mul windowSec sr in
  let ovl := GoInt.mul overlapSec sr in
  if win <=? 0 then Some [pcm]
  else chunkLoop (S (List.length pcm)) pcm win ovl 0 [].

(* ================================================================== *)
(** * Overlap de-duplication (main.go, dedupeOverlap) *)

(** The test of the loop body: same trimmed text and start times closer
    than [overlap + 0.2]. *)
Definition isDuplicate (overlap : float32) (prev cur : Segment.t) : bool :=
  streqb (Strings.TrimSpace (Segment.Text prev))
         (Strings.TrimSpace (Segment.Text cur))
  && ltb64 (abs64 (to64 (sub32 (Segment.Start prev) (Segment.Start cur))))
           (add64 (to64 overlap) c0_2).

(** [out] is never empty in the loop, so [out[len(out)-1]] is [last out]. *)
Fixpoint dedupeLoop (overlap : float32) (rest out : list Segment.t)
  : list Segment.t :=
  match rest with
  | [] => out
  | cur :: rest' =>
    let prev := last out cur in
    if isDuplicate overlap prev cur then dedupeLoop overlap rest' out
    else dedupeLoop overlap rest' (out ++ [cur])
  end.

Definition dedupeOverlap (segs : list Segment.t) (overlap : float32)
  : list Segment.t :=
  if len segs <? 2 then segs
  else
    match segs with
    | [] => []
    | s0 :: rest => dedupeLoop overlap rest [s0]
    end.

(** The rule in the spec's words: scan left to right with a running
    last-kept segment; drop a candidate exactly when it duplicates the
    last kept one; the first segment is kept. *)
Fixpoint dedupeScan (overlap : float32) (lastKept : Segment.t)
  (cands : list Segment.t) : list Segment.t :=
  match cands with
  | [] => []
  | c :: r =>
    if isDuplicate overlap lastKept c then dedupeScan overlap lastKept r
    else c :: dedupeScan overlap c r
  end.

Definition dedupeSpec (segs : list Segment.t) (overlap : float32)
  : list Segment.t :=
  match segs with
  | [] => []
  | s0 :: r => s0 :: dedupeScan overlap s0 r
  end.

(* ================================================================== *)
(** * Cue building (main.go, segmentsToCues and mergeShortCues) *)

(** [strings.TrimSpace(c.RawText + " " + next.RawText)]. *)
Definition mergedText (c next : Cue.t) : gostring :=
  Strings.TrimSpace (Cue.RawText c ++ [space] ++ Cue.RawText next).

(** The first loop of [mergeShortCues]. *)
Fixpoint mergeLoop (minDur : float64) (cues out : list Cue.t)
  : option (list Cue.t) :=
  match cues with
  | [] => Some out
  | c :: rest =>
    let dur := to64 (sub32 (Cue.End c) (Cue.Start c)) in
    match rest with
    | [] => Some (out ++ [c])
    | next :: rest' =>
      if geb64 dur minDur then mergeLoop minDur rest (out ++ [c])
      else
        match wrapWords (mergedText c next) 42 2 with
        | None => None
        | Some lines =>
          let merged :=
            Cue.mk (Cue.Idx c) (Cue.Start c) (Cue.End next) lines
                   (mergedText c next) in
          mergeLoop minDur rest' (out ++ [merged])
        end
    end
  end.

(** The second loop: [out[i].Idx = i + 1]. *)
Fixpoint reindexFrom (i : Z) (out : list Cue.t) : list Cue.t :=
  match out with
  | [] => []
  | c :: r =>
    Cue.mk (i + 1) (Cue.Start c) (Cue.End c) (Cue.Lines c) (Cue.RawText c)
    :: reindexFrom (i + 1) r
  end.

Definition mergeShortCues (cues : list Cue.t) (minDur : float64)
  : option (list Cue.t) :=
  if len cues <? 2 then Some cues
  else
    match mergeLoop minDur cues [] with
    | None => None
    | Some out => Some (reindexFrom 0 out)
    end.

Fixpoint cuesLoop (segs : list Segment.t) (maxChars maxLines : Z)
  (idx : Z) (cues : list Cue.t) : option (list Cue.t) :=
  match segs with
  | [] => Some cues
  | s :: segs' =>
    match wrapWords (Segment.Text s) maxChars maxLines with
    | None => None
    | Some lines =>
      if len lines =? 0 then cuesLoop segs' maxChars maxLines idx cues
      else
        cuesLoop segs' maxChars maxLines (idx + 1)
          (cues ++ [Cue.mk idx (Segment.Start s) (Segment.End s) lines
                           (Segment.Text s)])
    end
  end.

Definition segmentsToCues (segs : list Segment.t) (maxChars maxLines : Z)
  : option (list Cue.t) :=
  match cuesLoop segs maxChars maxLines 1 [] with
  | None => None
  | Some cues => mergeShortCues cues c0_6
  end.

(* ================================================================== *)
(** * Caption writers (main.go, tsVTT, tsSRT, writeVTT, writeSRT) *)

Module Fmt.

Definition digitChar (d : Z) : ascii := ascii_of_N (48 + Z.to_N d).

Fixpoint digitsFuel (fuel : nat) (n : Z) (acc : gostring) : gostring :=
  match fuel with
  | O => acc
  | S fuel' =>
    let acc1 := digitChar (n mod 10) :: acc in
    if n <? 10 then acc1 else digitsFuel fuel' (n / 10) acc1
  end.

(** Decimal digits of [n >= 0]; a number has no more decimal digits than
    binary ones. *)
Definition udigits (n : Z) : gostring :=
  digitsFuel (S (Z.to_nat (Z.log2 n))) n [].

Definition padZeros (w : nat) (s : gostring) : gostring :=
  repeat "0"%char (w - List.length s) ++ s.

(** [%d]. *)
Definition d (n : Z) : gostring :=
  if n <? 0 then "-"%char :: udigits (- n) else udigits n.

(** [%02d]: the sign counts in the width. *)
Definition d02 (n : Z) : gostring :=
  if n <? 0 then "-"%char :: padZeros 1 (udigits (- n))
  else padZeros 2 (udigits n).

(** [|x| * 1000] rounded to the nearest integer, ties to even, for
    [|x| = m * 2^e]. *)
Definition roundMilli (m : positive) (e : Z) : Z :=
  if 0 <=? e then Zpos m * 2 ^ e * 1000
  else
    let den := 2 ^ (- e) in
    let q := (Zpos m * 1000) / den in
    let r := (Zpos m * 1000) mod den in
    if 2 * r <? den then q
    else if den <? 2 * r then q + 1
    else if Z.even q then q else q + 1.

Definition milli (n : Z) : gostring :=
  udigits (n / 1000) ++ ["."%char] ++ padZeros 3 (udigits (n mod 1000)).

(** [%06.3f]: three decimals, zeros up to width 6 after the sign;
    infinities and NaN are padded with blanks. *)
Definition f06_3 (x : spec_float) : gostring :=
  match x with
  | S754_nan => go "   NaN"
  | S754_infinity false => go "  +Inf"
  | S754_infinity true => go "  -Inf"
  | S754_zero false => padZeros 6 (milli 0)
  | S754_zero true => "-"%char :: padZeros 5 (milli 0)
  | S754_finite false m e => padZeros 6 (milli (roundMilli m e))
  | S754_finite true m e => "-"%char :: padZeros 5 (milli (roundMilli m e))
  end.

End Fmt.

Definition nl : ascii := "010"%char.

(** [h*3600 + m*60] is [int(t)] less its remainder by 60: no wrap. *)
Definition tsVTT (t : float32) : gostring :=
  let h := Z.quot (to_int t) 3600 in
  let m := Z.quot (Z.rem (to_int t) 3600) 60 in
  let s := sub32 t (of_int32 (h * 3600 + m * 60)) in
  Fmt.d02 h ++ [":"%char] ++ Fmt.d02 m ++ [":"%char] ++ Fmt.f06_3 s.

Definition tsSRT (t : float32) : gostring :=
  Strings.ReplaceAll (tsVTT t) "."%char ","%char.

(** The lines of a cue, each followed by a newline. *)
Definition writeLines (lines : list gostring) : gostring :=
  flat_map (fun line => line ++ [nl]) lines.

Definition arrow : gostring := go " --> ".

Definition vttCue (c : Cue.t) : gostring :=
  tsVTT (Cue.Start c) ++ arrow ++ tsVTT (Cue.End c) ++ [nl]
  ++ writeLines (Cue.Lines c) ++ [nl].

Definition writeVTT (cues : list Cue.t) : gostring :=
  (go "WEBVTT" ++ [nl]) ++ [nl] ++ flat_map vttCue cues.

Definition srtCue (c : Cue.t) : gostring :=
  Fmt.d (Cue.Idx c) ++ [nl]
  ++ tsSRT (Cue.Start c) ++ arrow ++ tsSRT (Cue.End c) ++ [nl]
  ++ writeLines (Cue.Lines c) ++ [nl].

Definition writeSRT (cues : list Cue.t) : gostring :=
  flat_map srtCue cues.

(* ================================================================== *)
(** * The run (main.go, main, from the decoded PCM buffer on) *)

Definition pcmBuffer := list float32.

Inductive error :=
| ErrTranscribe           (* whole-file transcription failed *)
| ErrWindowOverlap        (* "window must be > overlap" *)
| ErrChunk (i : Z).       (* "chunk i: ..." *)

(** [Fail] is [fail(err)], which ends the process; [Crash] is a panic or a
    loop without end. *)
Inductive result (A : Type) :=
| Ok (a : A)
| Fail (e : error)
| Crash.
Arguments Ok {A} a.
Arguments Fail {A} e.
Arguments Crash {A}.

Record Config := mkConfig {
  windowSec : Z;
  overlapSec : Z;
  maxChars : Z;
  maxLines : Z;
  formatSRT : bool
}.

Definition shift (offset : float32) (s : Segment.t) : Segment.t :=
  Segment.mk (add32 (Segment.Start s) offset) (add32 (Segment.End s) offset)
             (Segment.Text s).

Section Run.

(** The external recogniser, [ctx.Process] followed by
    [ctx.ForEachSegment]: from the buffers it was given before in this run
    (the context is stateful) and the buffer to process, the segments in
    buffer-local time, or [None] when [Process] returns an error. *)
Variable engine : list pcmBuffer -> pcmBuffer -> option (list Segment.t).

(** The callback of [transcribe]: trim, drop what is empty. *)
Definition keepTrimmed (raw : list Segment.t) : list Segment.t :=
  flat_map (fun s =>
              let txt := Strings.TrimSpace (Segment.Text s) in
              if isEmpty txt then []
              else [Segment.mk (Segment.Start s) (Segment.End s) txt]) raw.

Definition transcribe (calls : list pcmBuffer) (pcm : pcmBuffer)
  : option (list Segment.t) :=
  match engine calls pcm with
  | None => None
  | Some raw => Some (keepTrimmed raw)
  end.

(** The loop over the chunks ([for i, c := range chunks]); [calls] is the
    list of buffers handed to the engine so far, [step] is
    [float32(win - ovl)]. *)
Fixpoint chunksLoop (chunks : list pcmBuffer) (i : Z) (offset step : float32)
  (calls : list pcmBuffer) (segments : list Segment.t)
  : list pcmBuffer * result (list Segment.t) :=
  match chunks with
  | [] => (calls, Ok segments)
  | c :: chunks' =>
    match transcribe calls c with
    | None => (calls ++ [c], Fail (ErrChunk i))
    | Some segs =>
      chunksLoop chunks' (i + 1) (add32 offset step) step (calls ++ [c])
                 (segments ++ map (shift offset) segs)
    end
  end.

(** The chunked branch up to the de-duplication: the global segment list. *)
Definition transcribeChunks (win ovl : Z) (chunks : list pcmBuffer)
  : list pcmBuffer * result (list Segment.t) :=
  chunksLoop chunks 0 zero32 (of_int32 (GoInt.sub win ovl)) [] [].

(** Lines 72 to 104 of [main]: the engine calls made and the segments. *)
Definition collectSegments (cfg : Config) (pcm : pcmBuffer)
  : list pcmBuffer * result (list Segment.t) :=
  if windowSec cfg <=? 0 then
    match transcribe [] pcm with
    | None => ([pcm], Fail ErrTranscribe)
    | Some segs => ([pcm], Ok segs)
    end
  else
    let win := windowSec cfg in
    let ovl := overlapSec cfg in
    if win <=? ovl then ([], Fail ErrWindowOverlap)
    else
      match chunkPCM pcm 16000 win ovl with
      | None => ([], Crash)
      | Some chunks =>
        match transcribeChunks win ovl chunks with
        | (calls, Ok segments) =>
          (calls, Ok (dedupeOverlap segments (of_int32 (overlapSec cfg))))
        | r => r
        end
      end.

(** The rest of [main]: cues, then the text written to the output. *)
Definition run (cfg : Config) (pcm : pcmBuffer)
  : list pcmBuffer * result gostring :=
  match collectSegments cfg pcm with
  | (calls, Ok segments) =>
    match segmentsToCues segments (maxChars cfg) (maxLines cfg) with
    | None => (calls, Crash)
    | Some cues =>
      (calls, Ok (if formatSRT cfg then writeSRT cues else writeVTT cues))
    end
  | (calls, Fail e) => (calls, Fail e)
  | (calls, Crash) => (calls, Crash)
  end.

(** The re-basing rule in the spec's words: the segments of chunk [i] get
    the offset [o_i = i * d] added to start and end, and the per-chunk
    lists are concatenated in chunk order; [d] is [window - overlap]. *)
Fixpoint stitchSpec (d i : Z) (calls chunks : list pcmBuffer)
  : list pcmBuffer * result (list Segment.t) :=
  match chunks with
  | [] => (calls, Ok [])
  | c :: chunks' =>
    match transcribe calls c with
    | None => (calls ++ [c], Fail (ErrChunk i))
    | Some segs =>
      match stitchSpec d (i + 1) (calls ++ [c]) chunks' with
      | (calls1, Ok rest) =>
        (calls1, Ok (map (shift (of_int32 (i * d))) segs ++ rest))
      | r => r
      end
    end
  end.

End Run.

(* ================================================================== *)
(** * Decoding (main.go, readWavPCM16) *)

(** [int16(uint16(b0) | uint16(b1)<<8)]: little-endian, two's complement. *)
Definition int16_le (b0 b1 : ascii) : Z :=
  let u := Z.lor (Z.of_N (N_of_ascii b0))
                 (Z.shiftl (Z.of_N (N_of_ascii b1)) 8) in
  if u <? 32768 then u else u - 65536.

(** [float32(v) / 32768.0]. *)
Definition sample (b0 b1 : ascii) : float32 :=
  SFdiv prec32 emax32 (of_int32 (int16_le b0 b1)) (of_int32 32768).

(** The read loop: the end of the file before a first byte ends the loop,
    before a second byte it is the error returned ([None]). *)
Fixpoint readSamples (data : list ascii) (samples : list float32)
  : option (list float32) :=
  match data with
  | [] => Some samples
  | b0 :: data' =>
    match data' with
    | [] => None
    | b1 :: rest => readSamples rest (samples ++ [sample b0 b1])
    end
  end.

(** [readWavPCM16] on the bytes of the file (opening and reading it are
    taken to succeed): the 44 bytes of the header are passed over, also
    when the file is shorter. *)
Definition readWavPCM16 (content : list ascii) : option (list float32) :=
  readSamples (skipn 44 content) [].

(* ================================================================== *)
(** * Predicates of the statements *)

Definition noSpace (w : gostring) : Prop := ~ In space w.

(** A word: not empty, without a blank. *)
Definition isWord (w : gostring) : Prop := w <> [] /\ noSpace w.

(** [l] is the words [ws] of [words] joined by single blanks. *)
Definition wholeWords (words : list gostring) (l : gostring)
  (ws : list gostring) : Prop :=
  ws <> [] /\ incl ws words /\ l = Strings.Join ws [space].

(** The two shapes of a line of [wrapWords]: whole words, which fit in
    [mc] bytes unless the line is a single word; or the first [mc] bytes of
    a word longer than that (the hard cut of [softTruncate]). *)
Definition lineOK (words : list gostring) (mc : Z) (l : gostring) : Prop :=
  (exists ws, wholeWords words l ws /\ (len l <= mc \/ exists w, ws = [w]))
  \/ (exists w, In w words /\ mc < len w /\ l = firstn (Z.to_nat mc) w).

(** [a; a+1; ...], [n] numbers. *)
Fixpoint zseq (a : Z) (n : nat) : list Z :=
  match n with
  | O => []
  | S n' => a :: zseq (a + 1) n'
  end.

(** The time range of a cue. *)
Definition span (c : Cue.t) : float32 * float32 := (Cue.Start c, Cue.End c).

(** The time range of a group of one cue, or of two adjacent cues merged:
    from the start of the first to the end of the last. *)
Definition groupSpan (g : list Cue.t) : option (float32 * float32) :=
  match g with
  | [c] => Some (Cue.Start c, Cue.End c)
  | [c; next] => Some (Cue.Start c, Cue.End next)
  | _ => None
  end.

(** The elements of [l] from position [lo] up to, not including, [hi]. *)
Definition window {A : Type} (l : list A) (lo hi : Z) : list A :=
  firstn (Z.to_nat (hi - lo)) (skipn (Z.to_nat lo) l).

(** What the line being filled is in the loop of [wrapWords]: nothing yet,
    or whole words that fit (a single word may be longer than the limit). *)
Definition currOK (words : list gostring) (mc : Z) (curr : gostring) : Prop :=
  curr = [] \/
  exists ws, wholeWords words curr ws /\ (len curr <= mc \/ exists w, ws = [w]).

(** Chunk [k] of a windowing with window [win] and stride [stride]
    (in samples): from [k * stride], [win] samples, clipped to the end. *)
Definition chunkAt {A : Type} (pcm : list A) (win stride k : Z) : list A :=
  window pcm (k * stride) (Z.min (k * stride + win) (len pcm)).

(** A mantissa of 24 bits with an exponent in range is a binary32 number. *)
Definition normal32 (m : positive) (e : Z) : Prop :=
  digits2_pos m = 24%positive /\ -149 <= e <= 104.

(** The value of the binary32 number with mantissa [m] and exponent
    [e >= -149], in units of [2^-149]. *)
Definition sv (m : positive) (e : Z) : Z := Zpos m * 2 ^ (e + 149).

(** [P 0 && P 1 && ... && P (n - 1)]. *)
Fixpoint allBelow (n : nat) (P : Z -> bool) : bool :=
  match n with
  | O => true
  | S k => P (Z.of_nat k) && allBelow k P
  end.

Definition isDigit (c : ascii) : bool :=
  ((48 <=? N_of_ascii c) && (N_of_ascii c <=? 57))%N.

(** [dd]. *)
Definition isTwoDigits (s : gostring) : bool :=
  match s with
  | [d1; d2] => isDigit d1 && isDigit d2
  | _ => false
  end.

(** [ddd]. *)
Definition isThreeDigits (s : gostring) : bool :=
  match s with
  | [d1; d2; d3] => isDigit d1 && isDigit d2 && isDigit d3
  | _ => false
  end.

(** [dd.ddd]. *)
Definition isSeconds (s : gostring) : bool :=
  match s with
  | [s1; s2; p; f1; f2; f3] =>
    isDigit s1 && isDigit s2 && Ascii.eqb p "."%char
    && isDigit f1 && isDigit f2 && isDigit f3
  | _ => false
  end.

(** [HH:MM:SS.mmm], with [sep] for the decimal separator. *)
Definition isTimestamp (sep : ascii) (s : gostring) : bool :=
  match s with
  | [h1; h2; c1; m1; m2; c2; s1; s2; p; f1; f2; f3] =>
    isDigit h1 && isDigit h2 && Ascii.eqb c1 ":"%char
    && isDigit m1 && isDigit m2 && Ascii.eqb c2 ":"%char
    && isDigit s1 && isDigit s2 && Ascii.eqb p sep
    && isDigit f1 && isDigit f2 && isDigit f3
  | _ => false
  end.

(** The times the captions are written for: zero, or a positive binary32
    number below 100 hours (360000 s). *)
Definition stampRange (t : float32) : Prop :=
  t = S754_zero false
  \/ exists m e, t = S754_finite false m e
                 /\ bounded prec32 emax32 m e = true
                 /\ sv m e < 360000 * 2 ^ 149.

(** The seconds field: zero, or a positive number below 60. *)
Definition secondsRange (s : float32) : Prop :=
  s = S754_zero false
  \/ exists m e, s = S754_finite false m e
                 /\ -149 <= e
                 /\ sv m e < 60 * 2 ^ 149.

(** [-1 <= x < 1]. *)
Definition inUnit (x : float32) : bool :=
  SFleb (of_int32 (-1)) x && SFltb x (of_int32 1).

(** [R] holds between every element of the list and the next one. *)
Fixpoint neighbours {A : Type} (R : A -> A -> Prop) (l : list A) : Prop :=
  match l with
  | a :: (b :: _) as t => R a b /\ neighbours R t
  | _ => True
  end.

(** The test of [mergeShortCues] that keeps a cue on its own:
    [float64(c.End - c.Start) >= minDur]. *)
Definition isLong (minDur : float64) (c : Cue.t) : bool :=
  geb64 (to64 (sub32 (Cue.End c) (Cue.Start c))) minDur.

(** Subsequences: the elements of the first list occur in the second, in
    the same order. *)
Inductive subseq {A : Type} : list A -> list A -> Prop :=
| subseq_nil : subseq [] []
| subseq_skip x l1 l2 : subseq l1 l2 -> subseq l1 (x :: l2)
| subseq_take x l1 l2 : subseq l1 l2 -> subseq (x :: l1) (x :: l2).

(* ================================================================== *)
(** * Basic facts about lengths, slices and strings *)

Lemma len_nil {A : Type} : len (@nil A) = 0.
Proof. reflexivity. Qed.

Lemma len_cons {A : Type} (x : A) (l : list A) : len (x :: l) = len l + 1.
Proof. unfold len. cbn [List.length]. lia. Qed.

Lemma len_app {A : Type} (l1 l2 : list A) : len (l1 ++ l2) = len l1 + len l2.
Proof. unfold len. rewrite length_app. lia. Qed.

Lemma len_nonneg {A : Type} (l : list A) : 0 <= len l.
Proof. unfold len. lia. Qed.

Lemma len_zero_nil {A : Type} (l : list A) : len l = 0 -> l = [].
Proof. destruct l; [reflexivity | rewrite len_cons; pose proof (len_nonneg l); lia]. Qed.

Lemma streqb_refl (a : gostring) : streqb a a = true.
Proof. induction a as [|x a IH]; cbn; [reflexivity|]. now rewrite Ascii.eqb_refl. Qed.

Lemma streqb_eq (a b : gostring) : streqb a b = true <-> a = b.
Proof.
  split.
  - revert b. induction a as [|x a IH]; intros [|y b] H; cbn in H;
      try discriminate; [reflexivity|].
    apply andb_true_iff in H as [Hxy Hab].
    apply Ascii.eqb_eq in Hxy. apply IH in Hab. congruence.
  - intros ->. apply streqb_refl.
Qed.

Lemma isEmpty_true (s : gostring) : isEmpty s = true <-> s = [].
Proof. destruct s; cbn; split; congruence. Qed.

Lemma slice_prefix {A : Type} (l : list A) (hi : Z) :
  0 <= hi <= len l -> slice l 0 hi = Some (firstn (Z.to_nat hi) l).
Proof.
  intros H. unfold slice.
  replace (0 <=? 0) with true by reflexivity.
  destruct (Z.leb_spec 0 hi); [|lia].
  destruct (Z.leb_spec hi (len l)); [|lia].
  cbn. now rewrite Z.sub_0_r.
Qed.

Lemma subseq_refl {A : Type} (l : list A) : subseq l l.
Proof. induction l; constructor; assumption. Qed.

(* ================================================================== *)
(** * Overlap de-duplication *)

Lemma dedupeLoop_scan (ov : float32) (rest : list Segment.t) :
  forall out lk,
    dedupeLoop ov rest (out ++ [lk]) = out ++ lk :: dedupeScan ov lk rest.
Proof.
  induction rest as [|cur rest IH]; intros out lk; cbn [dedupeLoop dedupeScan].
  - reflexivity.
  - rewrite last_last.
    destruct (isDuplicate ov lk cur).
    + apply IH.
    + rewrite IH, <- app_assoc. reflexivity.
Qed.

Lemma dedupeScan_subseq (ov : float32) (cands : list Segment.t) :
  forall lk, subseq (dedupeScan ov lk cands) cands.
Proof.
  induction cands as [|c r IH]; intros lk; cbn [dedupeScan].
  - constructor.
  - destruct (isDuplicate ov lk c); [apply subseq_skip | apply subseq_take]; apply IH.
Qed.

(** C3. [dedupeOverlap] is the left-to-right scan of the rule: with the
    running last-kept segment [lk], a candidate [c] is dropped exactly when
    [isDuplicate overlap lk c] holds (same trimmed text, and
    |lk.Start - c.Start| < overlap + 0.2) and otherwise becomes the last
    kept one; the first segment is always kept, and what is kept is a
    subsequence of the input. *)
Theorem dedupeOverlap_rule (segs : list Segment.t) (overlap : float32) :
  dedupeOverlap segs overlap = dedupeSpec segs overlap
  /\ (forall lk c r,
        dedupeScan overlap lk (c :: r) =
        if streqb (Strings.TrimSpace (Segment.Text lk))
                  (Strings.TrimSpace (Segment.Text c))
           && ltb64 (abs64 (to64 (sub32 (Segment.Start lk) (Segment.Start c))))
                    (add64 (to64 overlap) c0_2)
        then dedupeScan overlap lk r
        else c :: dedupeScan overlap c r)
  /\ hd_error (dedupeOverlap segs overlap) = hd_error segs
  /\ subseq (dedupeOverlap segs overlap) segs.
Proof.
  assert (E : dedupeOverlap segs overlap = dedupeSpec segs overlap).
  { unfold dedupeOverlap, dedupeSpec.
    destruct segs as [|s0 [|s1 r]]; try reflexivity.
    replace (len (s0 :: s1 :: r) <? 2) with false.
    - apply (dedupeLoop_scan overlap (s1 :: r) [] s0).
    - symmetry. apply Z.ltb_ge. rewrite !len_cons. pose proof (len_nonneg r). lia. }
  rewrite E. repeat split.
  - destruct segs; reflexivity.
  - destruct segs as [|s0 r]; cbn [dedupeSpec].
    + constructor.
    + apply subseq_take, dedupeScan_subseq.
Qed.

(* ================================================================== *)
(** * Words, joins and truncation *)

Lemma space_is_asciiSpace (c : ascii) :
  Strings.asciiSpace (Strings.byte c) = false -> c <> space.
Proof. intros H ->. discriminate H. Qed.

Lemma spaceWidth_zero_head (c : ascii) (r : gostring) :
  Strings.spaceWidth (c :: r) = O -> c <> space.
Proof.
  intros H. apply space_is_asciiSpace.
  cbn [Strings.spaceWidth] in H.
  destruct (Strings.asciiSpace (Strings.byte c)); [discriminate | reflexivity].
Qed.

Lemma fieldsFrom_words (s : gostring) :
  forall skip cur,
    noSpace cur ->
    Forall isWord (Strings.fieldsFrom s skip cur).
Proof.
  assert (Hflush : forall cur, noSpace cur -> Forall isWord (Strings.flush cur)).
  { intros [|x cur] Hc; cbn; constructor; [|constructor].
    split; [discriminate | exact Hc]. }
  induction s as [|c r IH]; intros skip cur Hcur; cbn [Strings.fieldsFrom].
  - now apply Hflush.
  - destruct skip as [|k]; [|now apply IH].
    destruct (Strings.spaceWidth (c :: r)) as [|k] eqn:Hw.
    + apply IH. intros Hin. apply in_app_or in Hin as [Hin|[Hin|[]]].
      * now apply Hcur.
      * apply (spaceWidth_zero_head _ _ Hw). now symmetry.
    + apply Forall_app. split; [now apply Hflush|].
      apply IH. intros [].
Qed.

Lemma Fields_words (s : gostring) : Forall isWord (Strings.Fields s).
Proof. apply fieldsFrom_words. intros []. Qed.

Lemma Join_cons (w : gostring) (ws : list gostring) (sep : gostring) :
  ws <> [] -> Strings.Join (w :: ws) sep = w ++ sep ++ Strings.Join ws sep.
Proof. destruct ws; [congruence | reflexivity]. Qed.

Lemma Join_snoc (ws : list gostring) (w sep : gostring) :
  ws <> [] -> Strings.Join (ws ++ [w]) sep = Strings.Join ws sep ++ sep ++ w.
Proof.
  induction ws as [|x ws IH]; intros Hne; [congruence|].
  destruct ws as [|y ws].
  - reflexivity.
  - change ((x :: y :: ws) ++ [w]) with (x :: ((y :: ws) ++ [w])).
    rewrite Join_cons by (cbn; discriminate).
    rewrite IH by discriminate.
    rewrite (Join_cons x (y :: ws)) by discriminate.
    now rewrite <- !app_assoc.
Qed.

Lemma Join_nil_inv (ws : list gostring) (sep : gostring) :
  Strings.Join ws sep = [] -> sep <> [] -> ws = [] \/ exists w, ws = [w].
Proof.
  destruct ws as [|w [|y ws]]; intros H Hsep; [now left | right; now exists w |].
  rewrite Join_cons in H by discriminate.
  apply app_eq_nil in H as [_ H]. apply app_eq_nil in H as [H _]. contradiction.
Qed.

(** A space inside a join of words is one of the separators. *)
Lemma Join_cut_at_space (W : list gostring) :
  Forall isWord W ->
  forall i, nth_error (Strings.Join W [space]) i = Some space ->
  exists W1 W2, W = W1 ++ W2 /\ W1 <> [] /\
                firstn i (Strings.Join W [space]) = Strings.Join W1 [space].
Proof.
  induction W as [|w W IH]; intros HW i Hi.
  - destruct i; discriminate.
  - inversion HW as [|? ? [Hne Hns] HW']; subst.
    destruct W as [|y W].
    + cbn in Hi. exfalso. apply Hns. eapply nth_error_In; eauto.
    + rewrite Join_cons in * by discriminate.
      destruct (Nat.lt_ge_cases i (List.length w)) as [Hlt|Hge].
      * rewrite nth_error_app1 in Hi by assumption.
        exfalso. apply Hns. eapply nth_error_In; eauto.
      * rewrite nth_error_app2 in Hi by assumption.
        rewrite firstn_app.
        rewrite firstn_all2 by assumption.
        destruct (i - List.length w)%nat as [|j] eqn:Hj.
        -- exists [w], (y :: W). repeat split; [discriminate|].
           cbn. now rewrite app_nil_r.
        -- cbn [app nth_error] in Hi.
           destruct (IH HW' j Hi) as (W1 & W2 & HW12 & HW1 & Hcut).
           exists (w :: W1), W2. repeat split.
           ++ cbn. now rewrite HW12.
           ++ discriminate.
           ++ cbn [app firstn]. rewrite Hcut.
              rewrite Join_cons by assumption. reflexivity.
Qed.

Lemma lastIndexFrom_spec (s : gostring) (c : ascii) :
  forall i acc,
    (Strings.lastIndexFrom s c i acc = acc /\ ~ In c s)
    \/ (i <= Strings.lastIndexFrom s c i acc < i + len s
        /\ nth_error s (Z.to_nat (Strings.lastIndexFrom s c i acc - i)) = Some c).
Proof.
  induction s as [|x s IH]; intros i acc; cbn [Strings.lastIndexFrom].
  - left. split; [reflexivity | intros []].
  - rewrite len_cons. pose proof (len_nonneg s) as Hs.
    destruct (Ascii.eqb_spec x c) as [->|Hxc].
    + destruct (IH (i + 1) i) as [[E Hn]|[Hr Hnth]].
      * right. rewrite E. split; [lia|]. now rewrite Z.sub_diag.
      * right. split; [lia|].
        replace (Z.to_nat (Strings.lastIndexFrom s c (i + 1) i - i))
          with (S (Z.to_nat (Strings.lastIndexFrom s c (i + 1) i - (i + 1))))
          by lia.
        exact Hnth.
    + destruct (IH (i + 1) acc) as [[E Hn]|[Hr Hnth]].
      * left. split; [exact E|]. intros [H|H]; [congruence | contradiction].
      * right. split; [lia|].
        replace (Z.to_nat (Strings.lastIndexFrom s c (i + 1) acc - i))
          with (S (Z.to_nat (Strings.lastIndexFrom s c (i + 1) acc - (i + 1))))
          by lia.
        exact Hnth.
Qed.

Lemma LastIndex_spec (s : gostring) (c : ascii) :
  (Strings.LastIndex s c = -1 /\ ~ In c s)
  \/ (0 <= Strings.LastIndex s c < len s
      /\ nth_error s (Z.to_nat (Strings.LastIndex s c)) = Some c).
Proof.
  unfold Strings.LastIndex.
  destruct (lastIndexFrom_spec s c 0 (-1)) as [H|[H1 H2]]; [now left | right].
  split; [lia|]. now rewrite Z.sub_0_r in H2.
Qed.

Lemma len_firstn {A : Type} (l : list A) (n : Z) :
  0 <= n <= len l -> len (firstn (Z.to_nat n) l) = n.
Proof.
  intros H. unfold len in *. rewrite firstn_length_le; lia.
Qed.

Lemma softTruncate_shape (words W : list gostring) (mc : Z) :
  0 <= mc -> Forall isWord W -> W <> [] -> incl W words ->
  exists l, softTruncate (Strings.Join W [space]) mc = Some l
            /\ lineOK words mc l.
Proof.
  intros Hmc HW Hne Hincl.
  set (s := Strings.Join W [space]).
  unfold softTruncate. fold s.
  destruct (Z.leb_spec (len s) mc) as [Hle|Hgt].
  { exists s. split; [reflexivity|]. left. exists W. repeat split; auto. }
  rewrite slice_prefix by lia.
  set (pre := firstn (Z.to_nat mc) s).
  assert (Hlenpre : len pre = mc) by (apply len_firstn; lia).
  destruct W as [|w W']; [congruence|].
  pose proof (Forall_inv HW) as [Hwne Hwns].
  pose proof (Forall_inv_tail HW) as HW'.
  assert (Hin_w : In w words) by (apply Hincl; now left).
  assert (Hs : exists tl, s = w ++ tl /\ (tl = [] \/ exists tl', tl = space :: tl')).
  { unfold s. destruct W' as [|y W'].
    - exists []. cbn. rewrite app_nil_r. auto.
    - rewrite Join_cons by discriminate. eexists. split; [reflexivity|].
      right. eexists. reflexivity. }
  destruct Hs as (tl & Hs & Htl).
  destruct (LastIndex_spec pre space) as [[Hidx Hnone]|[Hidx Hnth]].
  - (* no blank before the limit: the hard cut *)
    rewrite Hidx. cbn [Z.ltb Z.compare].
    exists pre. split; [reflexivity|].
    destruct (Z.lt_ge_cases mc (len w)) as [Hlt|Hge].
    + right. exists w. repeat split; auto.
      unfold pre. rewrite Hs, firstn_app.
      replace (Z.to_nat mc - List.length w)%nat with O by (unfold len in Hlt; lia).
      cbn. now rewrite app_nil_r.
    + destruct Htl as [->|[tl' ->]].
      * rewrite app_nil_r in Hs. rewrite Hs in Hgt. lia.
      * destruct (Z.eq_dec mc (len w)) as [Heq|Hneq].
        -- left. exists [w]. split.
           ++ repeat split; [discriminate | |].
              ** intros x [<-|[]]. exact Hin_w.
              ** unfold pre. rewrite Hs, firstn_app.
                 replace (Z.to_nat mc) with (List.length w) by (unfold len in Heq; lia).
                 rewrite firstn_all, Nat.sub_diag. cbn. now rewrite app_nil_r.
           ++ left. lia.
        -- exfalso. apply Hnone.
           apply (nth_error_In _ (List.length w)).
           unfold pre. rewrite nth_error_firstn.
           replace (List.length w <? Z.to_nat mc)%nat with true
             by (symmetry; apply Nat.ltb_lt; unfold len in *; lia).
           rewrite Hs, nth_error_app2, Nat.sub_diag by lia. reflexivity.
  - (* a blank before the limit: cut there *)
    assert (Hnth_s : nth_error s (Z.to_nat (Strings.LastIndex pre space)) = Some space).
    { unfold pre in Hnth. rewrite nth_error_firstn in Hnth.
      destruct (Nat.ltb_spec (Z.to_nat (Strings.LastIndex (firstn (Z.to_nat mc) s) space))
                             (Z.to_nat mc)); [exact Hnth | discriminate]. }
    destruct (Z.ltb_spec 0 (Strings.LastIndex pre space)) as [Hpos|Hzero].
    + rewrite slice_prefix by lia.
      eexists. split; [reflexivity|].
      destruct (Join_cut_at_space (w :: W') HW _ Hnth_s) as (W1 & W2 & HW12 & HW1 & Hcut).
      left. exists W1. fold s in Hcut. split.
      * repeat split; auto.
        intros x Hx. apply Hincl. rewrite HW12. apply in_or_app. now left.
      * left. rewrite len_firstn by lia. lia.
    + exfalso.
      replace (Strings.LastIndex pre space) with 0 in Hnth_s by lia.
      rewrite Hs in Hnth_s. destruct w as [|c w]; [congruence|].
      cbn in Hnth_s. injection Hnth_s as ->. apply Hwns. now left.
Qed.

Lemma Forall_firstn {A : Type} (P : A -> Prop) (n : nat) (l : list A) :
  Forall P l -> Forall P (firstn n l).
Proof.
  revert n. induction l as [|x l IH]; intros [|n] H; cbn; auto.
  inversion H; subst. constructor; auto.
Qed.

Lemma capLines_ok (P : gostring -> Prop) (lines : list gostring) (ml : Z) :
  0 <= ml -> Forall P lines ->
  exists out, capLines lines ml = Some out /\ Forall P out /\ len out <= ml.
Proof.
  intros Hml HP. unfold capLines.
  destruct (Z.ltb_spec ml (len lines)) as [Hlt|Hge].
  - rewrite slice_prefix by lia. eexists. split; [reflexivity|]. split.
    + apply Forall_firstn. exact HP.
    + rewrite len_firstn; lia.
  - exists lines. auto.
Qed.

Section WrapLoop.

Variable all : list gostring.
Variables mc ml : Z.
Hypothesis Hall : Forall isWord all.
Hypothesis Hmc : 0 <= mc.
Hypothesis Hml : 0 <= ml.

Lemma wordsJoinRemainingFrom_incl (l : list gostring) (from : gostring) :
  forall found, incl (wordsJoinRemainingFrom l from found) l.
Proof.
  induction l as [|w r IH]; intros found; cbn [wordsJoinRemainingFrom].
  - intros x [].
  - destruct (negb found && streqb w from).
    + apply incl_tl, IH.
    + destruct found.
      * intros x [<-|Hx]; [now left | right; now apply (IH true)].
      * apply incl_tl, IH.
Qed.

Lemma wrapLoop_ok (ws : list gostring) :
  forall lines curr,
    incl ws all -> Forall (lineOK all mc) lines -> currOK all mc curr ->
    exists out, wrapLoop all ws mc ml lines curr = Some out
                /\ Forall (lineOK all mc) out /\ len out <= ml.
Proof.
  induction ws as [|w ws IH]; intros lines curr Hws Hlines Hcurr;
    cbn [wrapLoop]; cbv zeta.
  - apply capLines_ok; [exact Hml|].
    destruct curr as [|c curr]; cbn [isEmpty]; [exact Hlines|].
    apply Forall_app. split; [exact Hlines|]. constructor; [|constructor].
    destruct Hcurr as [Hc|Hc]; [discriminate | now left].
  - assert (Hw_in : In w all) by (apply Hws; now left).
    assert (Hws' : incl ws all) by (intros x Hx; apply Hws; now right).
    assert (Hw : isWord w) by (rewrite Forall_forall in Hall; now apply Hall).
    assert (Hsingle : currOK all mc w).
    { right. exists [w]. split.
      - repeat split; [discriminate | intros x [<-|[]]; exact Hw_in].
      - right. now exists w. }
    destruct curr as [|c curr]; cbn [isEmpty].
    { now apply IH. }
    destruct Hcurr as [Hc|(cw & (Hcw1 & Hcw2 & Hcw3) & Hcwlen)]; [discriminate|].
    destruct (Z.leb_spec (len (c :: curr) + 1 + len w) mc) as [Hfit|Hnofit].
    + apply IH; [exact Hws' | exact Hlines |].
      right. exists (cw ++ [w]). split.
      * repeat split.
        -- destruct cw; discriminate.
        -- apply incl_app; [exact Hcw2 | intros x [<-|[]]; exact Hw_in].
        -- rewrite Join_snoc by exact Hcw1. now rewrite <- Hcw3.
      * left. rewrite !len_app. cbn [len List.length] in *.
        unfold len in *. cbn [List.length] in *. lia.
    + assert (Hlines1 : Forall (lineOK all mc) (lines ++ [c :: curr])).
      { apply Forall_app. split; [exact Hlines|]. constructor; [|constructor].
        left. exists cw. repeat split; auto. }
      lazymatch goal with
      | |- context [len ?x =? ml - 1] => destruct (len x =? ml - 1)
      end.
      * destruct (Strings.Join (wordsJoinRemaining all w) [space]) as [|r0 rest] eqn:Hrest;
          cbn [isEmpty].
        { now apply capLines_ok. }
        assert (Hrem : wordsJoinRemaining all w <> []).
        { intros E. rewrite E in Hrest. discriminate. }
        assert (Hrem_in : incl (wordsJoinRemaining all w) all)
          by apply wordsJoinRemainingFrom_incl.
        replace (0 <? len w) with true.
        2:{ symmetry. apply Z.ltb_lt. destruct Hw as [Hne _].
            destruct w; [congruence|]. rewrite len_cons. pose proof (len_nonneg w). lia. }
        rewrite <- Hrest, <- Join_cons by exact Hrem.
        destruct (softTruncate_shape all (w :: wordsJoinRemaining all w) mc)
          as (l & Hl & Hshape).
        -- exact Hmc.
        -- apply Forall_forall. intros x [<-|Hx]; [exact Hw|].
           rewrite Forall_forall in Hall. apply Hall, Hrem_in, Hx.
        -- discriminate.
        -- intros x [<-|Hx]; [exact Hw_in | now apply Hrem_in].
        -- rewrite Hl. apply capLines_ok; [exact Hml|].
           apply Forall_app. split; [exact Hlines1|].
           constructor; [exact Hshape | constructor].
      * now apply IH.
Qed.

End WrapLoop.

Lemma wrapWords_ok (s : gostring) (mc ml : Z) :
  0 <= mc -> 0 <= ml ->
  exists lines, wrapWords s mc ml = Some lines
                /\ Forall (lineOK (fieldsPreservePunct s) mc) lines
                /\ len lines <= ml.
Proof.
  intros Hmc Hml. unfold wrapWords.
  apply wrapLoop_ok; auto.
  - apply Fields_words.
  - apply incl_refl.
  - now left.
Qed.

(** C6. For positive limits [wrapWords] returns, with at most [maxLines]
    lines; every line is at most [maxChars] bytes long or is one whole
    word of the input, without a blank, that is longer than [maxChars];
    and a line that holds a blank is made of whole words of the input
    joined by single blanks, so no piece of a split word stands next to a
    blank. *)
Theorem wrapWords_invariants (s : gostring) (maxChars maxLines : Z) :
  0 < maxChars -> 0 < maxLines ->
  exists lines,
    wrapWords s maxChars maxLines = Some lines
    /\ len lines <= maxLines
    /\ Forall (fun l =>
         (len l <= maxChars
          \/ (In l (fieldsPreservePunct s) /\ ~ In space l /\ maxChars < len l))
         /\ (In space l ->
             exists ws, ws <> [] /\ incl ws (fieldsPreservePunct s)
                        /\ Forall isWord ws
                        /\ l = Strings.Join ws [space])) lines.
Proof.
  intros Hmc Hml.
  destruct (wrapWords_ok s maxChars maxLines) as (lines & Hw & Hok & Hlen); try lia.
  exists lines. split; [exact Hw|]. split; [exact Hlen|].
  pose proof (Fields_words s) as Hwords.
  fold (fieldsPreservePunct s) in Hwords.
  rewrite Forall_forall in Hwords.
  eapply Forall_impl; [|exact Hok].
  intros l [(ws & (Hne & Hin & Hj) & Hlen')|(w & Hw_in & Hlong & Hcut)].
  - split.
    + destruct Hlen' as [Hle|[w ->]]; [now left|].
      cbn in Hj. subst l.
      assert (Hw_in : In w (fieldsPreservePunct s)) by (apply Hin; now left).
      destruct (Z.le_gt_cases (len w) maxChars); [now left | right].
      split; [exact Hw_in|]. split; [apply (Hwords w Hw_in) | lia].
    + intros _. exists ws. repeat split; auto.
      apply Forall_forall. intros x Hx. apply Hwords, Hin, Hx.
  - split.
    + left. subst l. unfold len. rewrite length_firstn. unfold len in Hlong. lia.
    + intros Hsp. exfalso. subst l.
      destruct (Hwords w Hw_in) as [_ Hns]. apply Hns.
      rewrite <- (firstn_skipn (Z.to_nat maxChars) w). apply in_or_app. now left.
Qed.


Lemma wrapWords_invariants_witness :
  exists lines,
    wrapWords (go "a b c d e f g h") 5 2 = Some lines /\ len lines <= 2.
Proof.
  destruct (wrapWords_invariants (go "a b c d e f g h") 5 2) as (lines & H1 & H2 & _);
    [lia | lia |].
  exists lines. split; assumption.
Defined.

(* ================================================================== *)
(** * Cue building and the short-cue merge *)

Lemma zseq_length (a : Z) (n : nat) : List.length (zseq a n) = n.
Proof. revert a. induction n as [|n IH]; intros a; cbn; [reflexivity|]. now rewrite IH. Qed.

Lemma zseq_snoc (a : Z) (n : nat) :
  zseq a n ++ [a + Z.of_nat n] = zseq a (S n).
Proof.
  revert a. induction n as [|n IH]; intros a.
  - cbn. now rewrite Z.add_0_r.
  - change (zseq a (S n)) with (a :: zseq (a + 1) n).
    change (zseq a (S (S n))) with (a :: zseq (a + 1) (S n)).
    rewrite <- IH. cbn [app]. do 3 f_equal. lia.
Qed.

Lemma reindexFrom_idx (out : list Cue.t) :
  forall i, map Cue.Idx (reindexFrom i out) = zseq (i + 1) (List.length out).
Proof.
  induction out as [|c out IH]; intros i; cbn; [reflexivity|].
  now rewrite IH.
Qed.

Lemma reindexFrom_length (out : list Cue.t) :
  forall i, List.length (reindexFrom i out) = List.length out.
Proof. induction out as [|c out IH]; intros i; cbn; [reflexivity|]. now rewrite IH. Qed.

Lemma reindexFrom_span (out : list Cue.t) :
  forall i, map span (reindexFrom i out) = map span out.
Proof. induction out as [|c out IH]; intros i; cbn; [reflexivity|]. now rewrite IH. Qed.

Lemma wrapWords_42_2 (s : gostring) : exists lines, wrapWords s 42 2 = Some lines.
Proof.
  destruct (wrapWords_ok s 42 2) as (lines & H & _); [lia | lia |].
  now exists lines.
Qed.

Lemma mergeLoop_cons2 (d : float64) (c next : Cue.t) (rest out : list Cue.t) :
  mergeLoop d (c :: next :: rest) out =
  if geb64 (to64 (sub32 (Cue.End c) (Cue.Start c))) d
  then mergeLoop d (next :: rest) (out ++ [c])
  else
    match wrapWords (mergedText c next) 42 2 with
    | None => None
    | Some lines =>
      mergeLoop d rest
        (out ++ [Cue.mk (Cue.Idx c) (Cue.Start c) (Cue.End next) lines
                        (mergedText c next)])
    end.
Proof. reflexivity. Qed.

(** The merge loop returns; its output partitions the input into groups of
    one cue (kept) or two (merged), each output cue spanning its group. *)
Lemma mergeLoop_groups (d : float64) (n : nat) :
  forall cues out,
    (List.length cues <= n)%nat ->
    exists res groups,
      mergeLoop d cues out = Some (out ++ res)
      /\ List.concat groups = cues
      /\ map groupSpan groups = map (fun o => Some (span o)) res.
Proof.
  induction n as [|n IH]; intros cues out Hn.
  - destruct cues; [|cbn in Hn; lia].
    exists [], []. cbn. now rewrite app_nil_r.
  - destruct cues as [|c [|next rest]].
    + exists [], []. cbn. now rewrite app_nil_r.
    + exists [c], [[c]]. repeat split.
    + rewrite mergeLoop_cons2.
      destruct (geb64 (to64 (sub32 (Cue.End c) (Cue.Start c))) d).
      * destruct (IH (next :: rest) (out ++ [c])) as (res & groups & H1 & H2 & H3).
        { cbn in *. lia. }
        exists (c :: res), ([c] :: groups). repeat split.
        -- rewrite H1, <- app_assoc. reflexivity.
        -- cbn. now rewrite H2.
        -- cbn. now rewrite H3.
      * destruct (wrapWords_42_2 (mergedText c next)) as (lines & ->).
        destruct (IH rest (out ++ [Cue.mk (Cue.Idx c) (Cue.Start c) (Cue.End next)
                                          lines (mergedText c next)]))
          as (res & groups & H1 & H2 & H3).
        { cbn in *. lia. }
        eexists (_ :: res), ([c; next] :: groups). repeat split.
        -- rewrite H1, <- app_assoc. reflexivity.
        -- cbn. now rewrite H2.
        -- cbn. now rewrite H3.
Qed.

Lemma mergeShortCues_groups (cues : list Cue.t) (d : float64) :
  exists out groups,
    mergeShortCues cues d = Some out
    /\ List.concat groups = cues
    /\ map groupSpan groups = map (fun o => Some (span o)) out
    /\ (2 <= len cues -> map Cue.Idx out = zseq 1 (List.length out)).
Proof.
  unfold mergeShortCues.
  destruct (Z.ltb_spec (len cues) 2) as [Hlt|Hge].
  - destruct cues as [|c [|c' r]].
    + exists [], []. repeat split.
    + exists [c], [[c]]. repeat split.
      intros H. rewrite len_cons, len_nil in H. lia.
    + rewrite !len_cons in Hlt. pose proof (len_nonneg r). lia.
  - destruct (mergeLoop_groups d (List.length cues) cues [] (le_n _))
      as (res & groups & H1 & H2 & H3).
    rewrite H1. cbn [app].
    exists (reindexFrom 0 res), groups. repeat split; auto.
    + rewrite H3. rewrite <- (map_map span Some), <- (map_map span Some).
      now rewrite reindexFrom_span.
    + now rewrite reindexFrom_idx, reindexFrom_length.
Qed.

Lemma cuesLoop_idx (mc ml : Z) (segs : list Segment.t) :
  forall idx cues out,
    idx = len cues + 1 ->
    map Cue.Idx cues = zseq 1 (List.length cues) ->
    cuesLoop segs mc ml idx cues = Some out ->
    map Cue.Idx out = zseq 1 (List.length out).
Proof.
  induction segs as [|s segs IH]; intros idx cues out Hidx Hcues; cbn [cuesLoop].
  - intros [= <-]. exact Hcues.
  - destruct (wrapWords (Segment.Text s) mc ml) as [lines|]; [|discriminate].
    destruct (len lines =? 0).
    + now apply IH.
    + apply IH.
      * rewrite len_app, len_cons, len_nil. lia.
      * rewrite map_app, Hcues, length_app. cbn [map List.length].
        rewrite Nat.add_1_r, <- zseq_snoc. cbn [Cue.Idx].
        do 2 f_equal. subst idx. unfold len. lia.
Qed.

Lemma wrapWords_none (s : gostring) (mc ml : Z) :
  wrapWords s mc ml = None -> mc < 0 \/ ml < 0.
Proof.
  intros H.
  destruct (Z.lt_ge_cases mc 0); [now left|].
  destruct (Z.lt_ge_cases ml 0); [now right|].
  destruct (wrapWords_ok s mc ml) as (lines & E & _); [lia | lia | congruence].
Qed.

Lemma cuesLoop_none (mc ml : Z) (segs : list Segment.t) :
  forall idx cues, cuesLoop segs mc ml idx cues = None -> mc < 0 \/ ml < 0.
Proof.
  induction segs as [|s segs IH]; intros idx cues; cbn [cuesLoop]; [discriminate|].
  destruct (wrapWords (Segment.Text s) mc ml) as [lines|] eqn:Hw.
  - destruct (len lines =? 0); apply IH.
  - intros _. eapply wrapWords_none; eauto.
Qed.

(** C9. Whatever the segments and the limits, the cues that
    [segmentsToCues] returns (cue building, then the merge pass) carry the
    indices 1, 2, ..., n in output order, also for no cue or one; the
    function fails to return only by the slice panic of a negative limit. *)
Theorem segmentsToCues_indices (segs : list Segment.t) (maxChars maxLines : Z) :
  match segmentsToCues segs maxChars maxLines with
  | Some cues => map Cue.Idx cues = zseq 1 (List.length cues)
  | None => maxChars < 0 \/ maxLines < 0
  end.
Proof.
  unfold segmentsToCues.
  destruct (cuesLoop segs maxChars maxLines 1 []) as [cues|] eqn:Hloop.
  - apply cuesLoop_idx in Hloop; [|reflexivity|reflexivity].
    destruct (mergeShortCues_groups cues c0_6) as (out & groups & E & _ & _ & Hidx).
    rewrite E.
    destruct (Z.le_gt_cases 2 (len cues)) as [H2|H2]; [now apply Hidx|].
    unfold mergeShortCues in E.
    destruct (Z.ltb_spec (len cues) 2); [|lia].
    injection E as <-. exact Hloop.
  - eapply cuesLoop_none; eauto.
Qed.

Lemma last_app_nonempty {A : Type} (l1 l2 : list A) (d : A) :
  l2 <> [] -> last (l1 ++ l2) d = last l2 d.
Proof.
  intros H. induction l1 as [|x l1 IH]; [reflexivity|].
  cbn [app]. rewrite <- IH.
  destruct (l1 ++ l2) eqn:E; [|reflexivity].
  apply app_eq_nil in E as [_ E]. contradiction.
Qed.

Lemma last_cons_default {A : Type} (x : A) (l : list A) (d1 d2 : A) :
  last (x :: l) d1 = last (x :: l) d2.
Proof.
  revert x. induction l as [|y l IH]; intros x; [reflexivity|].
  change (last (y :: l) d1 = last (y :: l) d2). apply IH.
Qed.

Lemma groupSpan_some (g : list Cue.t) (sp : float32 * float32) :
  groupSpan g = Some sp ->
  exists c g', g = c :: g' /\ fst sp = Cue.Start c
               /\ snd sp = Cue.End (last g c).
Proof.
  destruct g as [|c [|n [|x g]]]; cbn; try discriminate; intros [= <-];
    eexists _, _; repeat split.
Qed.

Lemma groups_first (groups : list (list Cue.t)) (out : list Cue.t)
  (c0 : Cue.t) (r : list Cue.t) :
  List.concat groups = c0 :: r ->
  map groupSpan groups = map (fun o => Some (span o)) out ->
  exists o0 out', out = o0 :: out' /\ Cue.Start o0 = Cue.Start c0.
Proof.
  intros Hc Hm.
  destruct groups as [|g gs]; [discriminate|].
  destruct out as [|o0 out']; [discriminate|].
  injection Hm as Hg _.
  apply groupSpan_some in Hg as (c & g' & -> & Hs & _).
  cbn in Hc. injection Hc as -> _.
  exists o0, out'. split; [reflexivity|]. exact Hs.
Qed.

Lemma groups_last (groups : list (list Cue.t)) :
  forall out d,
    groups <> [] ->
    map groupSpan groups = map (fun o => Some (span o)) out ->
    Cue.End (last out d) = Cue.End (last (List.concat groups) d).
Proof.
  induction groups as [|g gs IH]; intros out d Hne Hm; [congruence|].
  destruct out as [|o out]; [discriminate|].
  injection Hm as Hg Hm.
  apply groupSpan_some in Hg as (c & g' & -> & _ & He).
  destruct gs as [|g2 gs].
  - destruct out; [|discriminate].
    cbn [List.concat]. rewrite app_nil_r.
    cbn [span snd] in He. change (last [o] d) with o. rewrite He.
    f_equal. apply last_cons_default.
  - destruct out as [|o2 out]; [discriminate|].
    assert (Hg2 : List.concat (g2 :: gs) <> []).
    { injection Hm as Hg2 _. apply groupSpan_some in Hg2 as (c2 & g2' & -> & _).
      discriminate. }
    change (List.concat ((c :: g') :: g2 :: gs))
      with ((c :: g') ++ List.concat (g2 :: gs)).
    rewrite last_app_nonempty by exact Hg2.
    change (last (o :: o2 :: out) d) with (last (o2 :: out) d).
    apply IH; [discriminate | exact Hm].
Qed.

(** C10. On a list that is not empty the merge pass returns a list that
    is not empty; its first cue starts where the first input cue starts and
    its last cue ends where the last input cue ends; and the output cues
    span, one by one and in order, the groups of a partition of the input
    into runs of one cue or of two adjacent cues: no time range is
    dropped, adjacent ranges are only coalesced. *)
Theorem mergeShortCues_span (c0 : Cue.t) (r : list Cue.t) (minDur : float64) :
  exists o0 out',
    mergeShortCues (c0 :: r) minDur = Some (o0 :: out')
    /\ Cue.Start o0 = Cue.Start c0
    /\ Cue.End (last (o0 :: out') c0) = Cue.End (last (c0 :: r) c0)
    /\ exists groups,
         List.concat groups = c0 :: r
         /\ map groupSpan groups = map (fun o => Some (span o)) (o0 :: out').
Proof.
  destruct (mergeShortCues_groups (c0 :: r) minDur)
    as (out & groups & E & Hc & Hm & _).
  destruct (groups_first groups out c0 r Hc Hm) as (o0 & out' & -> & Hs).
  exists o0, out'. split; [exact E|]. split; [exact Hs|]. split.
  - rewrite <- Hc. apply groups_last; [|exact Hm].
    intros ->. discriminate.
  - now exists groups.
Qed.

(* ================================================================== *)
(** * Windowing *)

Lemma wrap64_small (z : Z) : GoInt.in_int z -> GoInt.wrap64 z = z.
Proof.
  unfold GoInt.in_int, GoInt.min_int, GoInt.max_int, GoInt.wrap64. intros H.
  rewrite Z.mod_small; lia.
Qed.

Lemma zseq_nth (n : nat) :
  forall a k, (k < n)%nat -> nth_error (zseq a n) k = Some (a + Z.of_nat k).
Proof.
  induction n as [|n IH]; intros a k Hk; [lia|].
  destruct k as [|k]; cbn [zseq nth_error].
  - f_equal. lia.
  - rewrite IH by lia. f_equal. lia.
Qed.

Lemma slice_window {A : Type} (l : list A) (lo hi : Z) :
  0 <= lo -> lo <= hi -> hi <= len l -> slice l lo hi = Some (window l lo hi).
Proof.
  intros H1 H2 H3. unfold slice, window.
  destruct (Z.leb_spec 0 lo); [|lia].
  destruct (Z.leb_spec lo hi); [|lia].
  destruct (Z.leb_spec hi (len l)); [|lia].
  reflexivity.
Qed.

Lemma len_window {A : Type} (l : list A) (lo hi : Z) :
  0 <= lo -> lo <= hi -> hi <= len l -> len (window l lo hi) = hi - lo.
Proof.
  intros H1 H2 H3. unfold window, len in *.
  rewrite length_firstn, length_skipn. lia.
Qed.

Section ChunkLoop.

Context {A : Type}.
Variable pcm : list A.
Variables win ovl : Z.
Hypothesis Hovl : 0 < ovl.
Hypothesis Hwin : ovl < win.
Hypothesis Hrange : win + len pcm <= GoInt.max_int.

Lemma chunkLoop_run (fuel : nat) :
  forall k out,
    0 <= k -> k * (win - ovl) < len pcm ->
    len pcm - k * (win - ovl) <= Z.of_nat fuel ->
    exists m,
      chunkLoop fuel pcm win ovl (k * (win - ovl)) out
      = Some (out ++ map (chunkAt pcm win (win - ovl)) (zseq k (S m)))
      /\ (forall j, k <= j < k + Z.of_nat m -> j * (win - ovl) + win < len pcm)
      /\ (k + Z.of_nat m) * (win - ovl) < len pcm
      /\ len pcm <= (k + Z.of_nat m) * (win - ovl) + win.
Proof.
  unfold GoInt.max_int in Hrange.
  induction fuel as [|fuel IH]; intros k out Hk Hlt Hfuel; [lia|].
  cbn [chunkLoop].
  set (st := win - ovl) in *.
  assert (Hst : 0 < st < win) by (unfold st; lia).
  destruct (Z.ltb_spec (k * st) (len pcm)) as [_|]; [|lia].
  assert (Hks : 0 <= k * st) by nia.
  assert (Hadd : GoInt.add (k * st) win = k * st + win).
  { apply wrap64_small. unfold GoInt.in_int, GoInt.min_int, GoInt.max_int. lia. }
  rewrite Hadd.
  assert (Hend : (if len pcm <? k * st + win then len pcm else k * st + win)
                 = Z.min (k * st + win) (len pcm)).
  { destruct (Z.ltb_spec (len pcm) (k * st + win)); lia. }
  rewrite Hend.
  rewrite slice_window by lia.
  fold (chunkAt pcm win st k).
  destruct (Z.eqb_spec (Z.min (k * st + win) (len pcm)) (len pcm)) as [Hreach|Hnot].
  - exists O. rewrite Z.add_0_r. cbn [zseq map].
    repeat split; try lia.
  - assert (Hstep : GoInt.add (k * st) (GoInt.sub win ovl) = (k + 1) * st).
    { unfold GoInt.add, GoInt.sub. fold st.
      rewrite (wrap64_small st)
        by (unfold GoInt.in_int, GoInt.min_int, GoInt.max_int; lia).
      rewrite wrap64_small
        by (unfold GoInt.in_int, GoInt.min_int, GoInt.max_int; lia).
      lia. }
    rewrite Hstep.
    destruct (IH (k + 1) (out ++ [chunkAt pcm win st k])) as (m & E & H1 & H2 & H3);
      try lia.
    exists (S m). rewrite E, <- app_assoc.
    split; [reflexivity|].
    split; [|split].
    + intros j Hj. destruct (Z.eq_dec j k) as [->|]; [lia|]. apply H1. lia.
    + replace (k + Z.of_nat (S m)) with (k + 1 + Z.of_nat m) by lia. exact H2.
    + replace (k + Z.of_nat (S m)) with (k + 1 + Z.of_nat m) by lia. exact H3.
Qed.

End ChunkLoop.

Lemma len_map {A B : Type} (f : A -> B) (l : list A) : len (map f l) = len l.
Proof. unfold len. now rewrite length_map. Qed.

(** C4, within the range of [int].  For a buffer of [L > 0] samples, a
    positive sample rate and [w > o > 0], with [w * sr + L] at most the
    largest [int], [chunkPCM] returns [n >= 1] chunks; chunk [k] is the
    slice of the buffer that starts at sample [k * (w - o) * sr] and is
    [w * sr] samples long, clipped to the end of the buffer, so the chunks
    come in increasing start order; no chunk before the last reaches the
    end of the buffer and the last one ends exactly there; and every
    sample position of [0, L) lies in some chunk. *)
Theorem chunkPCM_windows {A : Type} (pcm : list A) (sr w o : Z) :
  0 < len pcm -> 0 < sr -> 0 < o -> o < w ->
  w * sr + len pcm <= GoInt.max_int ->
  exists chunks,
    chunkPCM pcm sr w o = Some chunks
    /\ 1 <= len chunks
    /\ (forall k, 0 <= k < len chunks ->
          exists c,
            nth_error chunks (Z.to_nat k) = Some c
            /\ slice pcm (k * (w - o) * sr)
                     (Z.min (k * (w - o) * sr + w * sr) (len pcm)) = Some c
            /\ len c = Z.min (w * sr) (len pcm - k * (w - o) * sr))
    /\ (forall k, 0 <= k < len chunks - 1 ->
          k * (w - o) * sr + w * sr < len pcm)
    /\ (len chunks - 1) * (w - o) * sr < len pcm
    /\ Z.min ((len chunks - 1) * (w - o) * sr + w * sr) (len pcm) = len pcm
    /\ (forall j, 0 <= j < len pcm ->
          exists k, 0 <= k < len chunks
                    /\ k * (w - o) * sr <= j
                       < Z.min (k * (w - o) * sr + w * sr) (len pcm)).
Proof.
  intros HL Hsr Ho Hw Hrange.
  pose proof Hrange as Hrange'. unfold GoInt.max_int in Hrange'.
  assert (Hosr : 0 < o * sr) by nia.
  assert (Hwsr : o * sr < w * sr) by nia.
  unfold chunkPCM, GoInt.mul.
  rewrite !wrap64_small
    by (unfold GoInt.in_int, GoInt.min_int, GoInt.max_int; lia).
  destruct (Z.leb_spec (w * sr) 0) as [|_]; [lia|].
  destruct (chunkLoop_run pcm (w * sr) (o * sr) Hosr Hwsr Hrange
                          (S (List.length pcm)) 0 [])
    as (m & E & H1 & H2 & H3); [lia | lia | unfold len; lia |].
  replace (w * sr - o * sr) with ((w - o) * sr) in * by lia.
  set (st := (w - o) * sr) in *.
  assert (Hst : 0 < st < w * sr) by (unfold st; nia).
  rewrite Z.mul_0_l in E. cbn [app] in E.
  eexists. split; [exact E|].
  assert (Hn : len (map (chunkAt pcm (w * sr) st) (zseq 0 (S m))) = Z.of_nat m + 1).
  { rewrite len_map. unfold len. rewrite zseq_length. lia. }
  rewrite Hn.
  assert (Hassoc : forall k, k * (w - o) * sr = k * st) by (intros; unfold st; lia).
  split; [lia|]. split; [|split; [|split; [|split]]].
  - intros k Hk. exists (chunkAt pcm (w * sr) st k).
    rewrite Hassoc.
    assert (Hkst : 0 <= k * st) by nia.
    assert (Hklt : k * st < len pcm).
    { destruct (Z.eq_dec k (Z.of_nat m)) as [->|]; [lia|].
      specialize (H1 k ltac:(lia)). lia. }
    split; [|split].
    + erewrite map_nth_error; [reflexivity|].
      rewrite zseq_nth by lia. f_equal. lia.
    + apply slice_window; lia.
    + unfold chunkAt. rewrite len_window; lia.
  - intros k Hk. rewrite Hassoc. apply H1. lia.
  - rewrite Hassoc. replace (Z.of_nat m + 1 - 1) with (0 + Z.of_nat m) by lia.
    exact H2.
  - rewrite Hassoc. replace (Z.of_nat m + 1 - 1) with (0 + Z.of_nat m) by lia.
    lia.
  - intros j Hj.
    pose proof (Z.mul_div_le j st ltac:(lia)) as Hq1.
    pose proof (Z.mul_succ_div_gt j st ltac:(lia)) as Hq2.
    assert (Hq0 : 0 <= j / st) by (apply Z.div_pos; lia).
    destruct (Z.le_gt_cases (j / st) (Z.of_nat m)) as [Hle|Hgt].
    + exists (j / st). rewrite Hassoc. split; [lia|]. lia.
    + exists (Z.of_nat m). rewrite Hassoc. split; [lia|].
      assert (Z.of_nat m * st <= (j / st) * st) by nia.
      lia.
Qed.

(** The scenario of the specification: 125 seconds at 16 kHz, a window of
    60 s and an overlap of 1 s give three chunks, at 0 s, 59 s and 118 s,
    the last one ending at 125 s. *)
Lemma chunkPCM_windows_witness :
  exists c0 c1 c2,
    chunkPCM (repeat zero32 (Z.to_nat (125 * 16000))) 16000 60 1
    = Some [c0; c1; c2]
    /\ slice (repeat zero32 (Z.to_nat (125 * 16000)))
             (0 * 16000) (60 * 16000) = Some c0
    /\ slice (repeat zero32 (Z.to_nat (125 * 16000)))
             (59 * 16000) (119 * 16000) = Some c1
    /\ slice (repeat zero32 (Z.to_nat (125 * 16000)))
             (118 * 16000) (125 * 16000) = Some c2.
Proof.
  set (pcm := repeat zero32 (Z.to_nat (125 * 16000))).
  assert (HL : len pcm = 2000000).
  { unfold pcm, len. rewrite repeat_length. lia. }
  clearbody pcm.
  destruct (chunkPCM_windows pcm 16000 60 1)
    as (chunks & E & Hn & Hk & Hbefore & Hlast & Hend & _);
    try (rewrite ?HL; unfold GoInt.max_int; lia).
  rewrite HL in *.
  assert (Hlen : len chunks = 3).
  { destruct (Z.le_gt_cases (len chunks) 3) as [Hle|Hgt].
    - destruct (Z.le_gt_cases (len chunks) 2); lia.
    - specialize (Hbefore 2 ltac:(lia)). lia. }
  destruct (Hk 0 ltac:(lia)) as (c0 & N0 & S0 & _).
  destruct (Hk 1 ltac:(lia)) as (c1 & N1 & S1 & _).
  destruct (Hk 2 ltac:(lia)) as (c2 & N2 & S2 & _).
  destruct chunks as [|x0 [|x1 [|x2 [|x3 r]]]];
    try (unfold len in Hlen; cbn [List.length] in Hlen; lia).
  cbn in N0, N1, N2. injection N0 as ->. injection N1 as ->. injection N2 as ->.
  exists c0, c1, c2.
  split; [exact E|]. split; [exact S0|]. split; [exact S1 | exact S2].
Defined.

(* ================================================================== *)
(** * The remainder rule of wrapWords and the re-wrap of merged cues *)

(** C1, at an input where the code departs from the rule: the word that
    opens the last line is also the last word; the join of the words after
    it is empty, so nothing is appended and "world" is in no line. *)
Theorem wrapWords_drops_last_word :
  fieldsPreservePunct (go "hello world") = [go "hello"; go "world"]
  /\ wrapWords (go "hello world") 5 2 = Some [go "hello"].
Proof. split; reflexivity. Qed.

(** The same rule, with a repeated word: [wordsJoinRemaining] takes the
    words after the first "ab", so the last line is cut from
    "ab c ab d" instead of "ab d". *)
Lemma wrapWords_repeated_word :
  wrapWords (go "ab c ab d") 4 2 = Some [go "ab c"; go "ab"].
Proof. reflexivity. Qed.

(** C2, at an input where the code departs from the rule: with the limits
    7 and 2 the two cues are built with those limits, but the merged cue is
    wrapped with the constants 42 and 2 of [mergeShortCues]. *)
Theorem mergeShortCues_ignores_limits :
  segmentsToCues
    [Segment.mk (ratio32 0 1) (ratio32 1 2) (go "aaa bbb");
     Segment.mk (ratio32 1 2) (ratio32 2 1) (go "ccc ddd")] 7 2
  = Some [Cue.mk 1 (ratio32 0 1) (ratio32 2 1) [go "aaa bbb ccc ddd"]
                 (go "aaa bbb ccc ddd")]
  /\ wrapWords (go "aaa bbb ccc ddd") 7 2 = Some [go "aaa bbb"; go "ccc ddd"]
  /\ wrapWords (go "aaa bbb ccc ddd") 42 2 = Some [go "aaa bbb ccc ddd"].
Proof. repeat split; vm_compute; reflexivity. Qed.

(* ================================================================== *)
(** * Whole-file mode and the validation of the configuration *)

Lemma chunksLoop_not_config (engine : list pcmBuffer -> pcmBuffer -> option (list Segment.t))
  (chunks : list pcmBuffer) :
  forall i offset step calls segments,
    snd (chunksLoop engine chunks i offset step calls segments)
    <> Fail ErrWindowOverlap.
Proof.
  induction chunks as [|c chunks IH]; intros i offset step calls segments;
    cbn [chunksLoop].
  - discriminate.
  - destruct (transcribe engine calls c); [apply IH | discriminate].
Qed.

(** C8, as the code has it.  With [windowSec <= 0] the engine is called
    once, on the whole buffer, and its segments (trimmed, the empty ones
    dropped) are the result as they are: no offset is added and
    [dedupeOverlap] is not applied.  With [windowSec > 0] the run fails
    with the configuration error, before any call of the engine, exactly
    when [windowSec <= overlapSec]; the sign of [overlapSec] is not
    looked at. *)
Theorem run_modes (engine : list pcmBuffer -> pcmBuffer -> option (list Segment.t))
  (cfg : Config) (pcm : pcmBuffer) :
  (windowSec cfg <= 0 ->
   collectSegments engine cfg pcm
   = ([pcm], match engine [] pcm with
             | Some raw => Ok (keepTrimmed raw)
             | None => Fail ErrTranscribe
             end))
  /\ (0 < windowSec cfg -> windowSec cfg <= overlapSec cfg ->
      run engine cfg pcm = ([], Fail ErrWindowOverlap))
  /\ (0 < windowSec cfg -> overlapSec cfg < windowSec cfg ->
      snd (run engine cfg pcm) <> Fail ErrWindowOverlap).
Proof.
  split; [|split].
  - intros Hw. unfold collectSegments, transcribe.
    destruct (Z.leb_spec (windowSec cfg) 0); [|lia].
    destruct (engine [] pcm); reflexivity.
  - intros Hw Ho. unfold run, collectSegments.
    destruct (Z.leb_spec (windowSec cfg) 0); [lia|].
    destruct (Z.leb_spec (windowSec cfg) (overlapSec cfg)); [|lia].
    reflexivity.
  - intros Hw Ho. unfold run, collectSegments.
    destruct (Z.leb_spec (windowSec cfg) 0); [lia|].
    destruct (Z.leb_spec (windowSec cfg) (overlapSec cfg)); [lia|].
    destruct (chunkPCM pcm 16000 (windowSec cfg) (overlapSec cfg)) as [chunks|];
      [|discriminate].
    pose proof (chunksLoop_not_config engine chunks 0 zero32
                  (of_int32 (GoInt.sub (windowSec cfg) (overlapSec cfg))) [] [])
      as Hloop.
    unfold transcribeChunks.
    destruct (chunksLoop engine chunks 0 zero32
                (of_int32 (GoInt.sub (windowSec cfg) (overlapSec cfg))) [] [])
      as [calls [segments|e|]]; cbn [snd] in *.
    + destruct (segmentsToCues _ _ _); discriminate.
    + intros [= ->]. now apply Hloop.
    + discriminate.
Qed.

(** A negative overlap passes the validation: the run goes on, the engine
    is called and the captions are written. *)
Lemma negative_overlap_accepted :
  let cfg := mkConfig 60 (-1) 42 2 false in
  0 < windowSec cfg
  /\ ~ (0 <= overlapSec cfg)
  /\ run (fun _ _ => Some []) cfg [zero32]
     = ([[zero32]], Ok (go "WEBVTT" ++ [nl; nl])).
Proof. cbv zeta. split; [reflexivity|]. split; [cbn; lia | vm_compute; reflexivity]. Qed.

Lemma run_modes_witness :
  collectSegments (fun _ _ => Some []) (mkConfig 0 1 42 2 false) [zero32]
  = ([[zero32]], Ok [])
  /\ run (fun _ _ => Some []) (mkConfig 60 60 42 2 false) [zero32]
     = ([], Fail ErrWindowOverlap)
  /\ snd (run (fun _ _ => Some []) (mkConfig 60 1 42 2 false) [zero32])
     <> Fail ErrWindowOverlap.
Proof.
  split; [|split].
  - apply (proj1 (run_modes (fun _ _ => Some []) (mkConfig 0 1 42 2 false) [zero32])).
    cbn. lia.
  - apply (proj1 (proj2 (run_modes (fun _ _ => Some []) (mkConfig 60 60 42 2 false)
                                   [zero32]))); cbn; lia.
  - apply (proj2 (proj2 (run_modes (fun _ _ => Some []) (mkConfig 60 1 42 2 false)
                                   [zero32]))); cbn; lia.
Defined.

(* ================================================================== *)
(** * Exact binary32 arithmetic *)

Lemma digits2_bounds (p : positive) :
  2 ^ (Zpos (digits2_pos p) - 1) <= Zpos p < 2 ^ Zpos (digits2_pos p).
Proof.
  induction p as [p IH|p IH|]; cbn [digits2_pos].
  - rewrite Pos2Z.inj_succ.
    replace (Z.succ (Zpos (digits2_pos p)) - 1) with (Z.succ (Zpos (digits2_pos p) - 1)) by lia.
    rewrite !Z.pow_succ_r by lia. lia.
  - rewrite Pos2Z.inj_succ.
    replace (Z.succ (Zpos (digits2_pos p)) - 1) with (Z.succ (Zpos (digits2_pos p) - 1)) by lia.
    rewrite !Z.pow_succ_r by lia. lia.
  - cbn. lia.
Qed.

Lemma digits2_unique (p : positive) (k : Z) :
  2 ^ (k - 1) <= Zpos p < 2 ^ k -> Zpos (digits2_pos p) = k.
Proof.
  intros [H1 H2]. pose proof (digits2_bounds p) as [B1 B2].
  assert (Hk : 0 < k).
  { destruct (Z.lt_ge_cases 0 k); [assumption|].
    rewrite (Z.pow_neg_r 2 (k - 1)) in H1 by lia.
    destruct (Z.eq_dec k 0) as [->|]; [cbn in H2; lia|].
    rewrite Z.pow_neg_r in H2 by lia. lia. }
  destruct (Z.lt_trichotomy (Zpos (digits2_pos p)) k) as [Hlt|[Heq|Hgt]];
    [|assumption|].
  - assert (2 ^ Zpos (digits2_pos p) <= 2 ^ (k - 1))
      by (apply Z.pow_le_mono_r; lia). lia.
  - assert (2 ^ k <= 2 ^ (Zpos (digits2_pos p) - 1))
      by (apply Z.pow_le_mono_r; lia). lia.
Qed.

Lemma iter_xO_value (m k : positive) :
  Zpos (Pos.iter xO m k) = Zpos m * 2 ^ Zpos k.
Proof.
  change (Pos.iter xO m k) with (shift_pos k m).
  rewrite shift_pos_correct, Z.pow_pos_fold. lia.
Qed.

Lemma digits2_iter_xO (m k : positive) :
  Zpos (digits2_pos (Pos.iter xO m k)) = Zpos (digits2_pos m) + Zpos k.
Proof.
  apply digits2_unique. rewrite iter_xO_value.
  pose proof (digits2_bounds m) as [B1 B2].
  replace (Zpos (digits2_pos m) + Zpos k - 1)
    with ((Zpos (digits2_pos m) - 1) + Zpos k) by lia.
  rewrite !Z.pow_add_r by lia.
  assert (0 < 2 ^ Zpos k) by (apply Z.pow_pos_nonneg; lia).
  nia.
Qed.

Lemma iter_shr_1 (k : positive) :
  forall m,
    iter_pos shr_1 k (Build_shr_record (Zpos (Pos.iter xO m k)) false false)
    = Build_shr_record (Zpos m) false false.
Proof.
  induction k as [k IH|k IH|]; intros m; cbn [iter_pos Pos.iter].
  - cbn [shr_1 orb]. rewrite IH. apply IH.
  - rewrite IH. apply IH.
  - reflexivity.
Qed.

Lemma fexp32 (x : Z) : fexp prec32 emax32 x = Z.max (x - 24) (-149).
Proof. reflexivity. Qed.

Lemma binary_round_tail (sx : bool) (m : positive) (e : Z) :
  normal32 m e ->
  (let '(mrs, e1) := shr_fexp prec32 emax32 (Zpos m) e loc_Exact in
   match shr_m mrs with
   | Z0 => S754_zero sx
   | Zpos m1 =>
     if e1 <=? emax32 - prec32 then S754_finite sx m1 e1
     else S754_infinity sx
   | Zneg _ => S754_nan
   end) = S754_finite sx m e.
Proof.
  intros [Hd He]. unfold shr_fexp.
  cbn [Zdigits2 shr_record_of_loc]. rewrite Hd, fexp32.
  replace (Z.max (24 + e - 24) (-149) - e) with 0 by lia.
  cbn [shr shr_m].
  destruct (Z.leb_spec e (emax32 - prec32)); [reflexivity|].
  unfold emax32, prec32 in *. lia.
Qed.

Lemma binary_round_aux_normal (sx : bool) (m : positive) (e : Z) :
  normal32 m e ->
  binary_round_aux prec32 emax32 sx (Zpos m) e loc_Exact = S754_finite sx m e.
Proof.
  intros Hn. pose proof Hn as [Hd He].
  unfold binary_round_aux, shr_fexp at 1.
  cbn [Zdigits2 shr_record_of_loc]. rewrite Hd, fexp32.
  replace (Z.max (24 + e - 24) (-149) - e) with 0 by lia.
  cbn [shr shr_m loc_of_shr_record round_nearest_even].
  apply (binary_round_tail sx m e Hn).
Qed.

Lemma binary_round_aux_shr (sx : bool) (m k : positive) (e : Z) :
  normal32 m e ->
  binary_round_aux prec32 emax32 sx (Zpos (Pos.iter xO m k)) (e - Zpos k) loc_Exact
  = S754_finite sx m e.
Proof.
  intros Hn. pose proof Hn as [Hd He].
  unfold binary_round_aux at 1, shr_fexp at 1.
  cbn [Zdigits2 shr_record_of_loc].
  rewrite digits2_iter_xO, Hd, fexp32.
  replace (Z.max (24 + Zpos k + (e - Zpos k) - 24) (-149) - (e - Zpos k))
    with (Zpos k) by lia.
  cbn [shr]. rewrite iter_shr_1.
  cbn [shr_m loc_of_shr_record round_nearest_even].
  replace (e - Zpos k + Zpos k) with e by lia.
  apply (binary_round_tail sx m e Hn).
Qed.

Lemma pow2_pos (x : Z) : 0 <= x -> 0 < 2 ^ x.
Proof. intros. apply Z.pow_pos_nonneg; lia. Qed.

Lemma sv_shift (m k : positive) (e : Z) :
  -149 <= e - Zpos k -> sv (Pos.iter xO m k) (e - Zpos k) = sv m e.
Proof.
  intros H. unfold sv. rewrite iter_xO_value.
  replace (e + 149) with (Zpos k + (e - Zpos k + 149)) by lia.
  rewrite (Z.pow_add_r 2 (Zpos k)) by lia. lia.
Qed.

Lemma sv_inj (m1 m2 : positive) (e : Z) :
  -149 <= e -> sv m1 e = sv m2 e -> m1 = m2.
Proof.
  unfold sv. intros He H. pose proof (pow2_pos (e + 149) ltac:(lia)).
  assert (Zpos m1 = Zpos m2) by nia. congruence.
Qed.

(** Rounding a number that binary32 holds gives that number. *)
Lemma binary_round_canon (sx : bool) (M : positive) (e : Z) (m1 : positive) (e1 : Z) :
  -149 <= e -> normal32 m1 e1 -> sv M e = sv m1 e1 ->
  binary_round prec32 emax32 sx M e = S754_finite sx m1 e1.
Proof.
  intros He Hn Hsv. pose proof Hn as [Hd He1].
  unfold binary_round.
  destruct (e - e1) as [|k|k] eqn:Hk.
  - assert (e = e1) by lia. subst e1.
    apply sv_inj in Hsv; [|lia]. subst m1.
    rewrite Hd, fexp32.
    replace (Z.max (24 + e - 24) (-149)) with e by lia.
    unfold shl_align. rewrite Z.sub_diag.
    now apply binary_round_aux_normal.
  - (* the mantissa is shifted left by [k] *)
    assert (Hm : m1 = Pos.iter xO M k).
    { apply (sv_inj _ _ e1); [lia|]. rewrite <- Hsv.
      replace e1 with (e - Zpos k) by lia. symmetry. apply sv_shift. lia. }
    assert (HdM : Zpos (digits2_pos M) + Zpos k = 24).
    { rewrite <- digits2_iter_xO, <- Hm, Hd. reflexivity. }
    rewrite fexp32.
    replace (Z.max (Zpos (digits2_pos M) + e - 24) (-149)) with e1 by lia.
    unfold shl_align.
    replace (e1 - e) with (Zneg k) by lia.
    rewrite <- Hm. now apply binary_round_aux_normal.
  - (* the mantissa is shifted right by [k] *)
    assert (Hm : M = Pos.iter xO m1 k).
    { apply (sv_inj _ _ e); [lia|]. rewrite Hsv.
      replace e with (e1 - Zpos k) by lia. symmetry. apply sv_shift. lia. }
    assert (HdM : Zpos (digits2_pos M) = 24 + Zpos k).
    { rewrite Hm, digits2_iter_xO, Hd. reflexivity. }
    rewrite fexp32, HdM.
    replace (Z.max (24 + Zpos k + e - 24) (-149)) with e1 by lia.
    unfold shl_align.
    replace (e1 - e) with (Zpos k) by lia.
    rewrite Hm. replace e with (e1 - Zpos k) by lia.
    now apply binary_round_aux_shr.
Qed.

Lemma of_int32_canon (c : Z) (m : positive) (e : Z) :
  0 < c -> normal32 m e -> sv m e = c * 2 ^ 149 ->
  of_int32 c = S754_finite false m e.
Proof.
  intros Hc Hn Hsv. destruct c as [|p|p]; try lia.
  unfold of_int32, binary_normalize.
  apply binary_round_canon; [lia | exact Hn |].
  rewrite Hsv. reflexivity.
Qed.

Lemma shl_align_sv (m : positive) (e ez : Z) :
  -149 <= ez -> ez <= e ->
  sv (fst (shl_align m e ez)) ez = sv m e.
Proof.
  intros H1 H2. unfold shl_align.
  destruct (ez - e) as [|k|k] eqn:Hk; cbn [fst].
  - replace ez with e by lia. reflexivity.
  - lia.
  - replace ez with (e - Zpos k) by lia. apply sv_shift. lia.
Qed.

Lemma sv_add (m1 m2 : positive) (e : Z) :
  sv (m1 + m2) e = sv m1 e + sv m2 e.
Proof. unfold sv. rewrite Pos2Z.inj_add. lia. Qed.

(** The sum of two positive binary32 numbers, when binary32 holds it. *)
Lemma add32_canon (ma mb mc : positive) (ea eb ec : Z) :
  -149 <= ea -> -149 <= eb -> normal32 mc ec ->
  sv mc ec = sv ma ea + sv mb eb ->
  add32 (S754_finite false ma ea) (S754_finite false mb eb)
  = S754_finite false mc ec.
Proof.
  intros Ha Hb Hn Hsv. unfold add32, SFadd. cbn [cond_Zopp].
  set (ez := Z.min ea eb).
  change (Zpos (fst (shl_align ma ea ez)) + Zpos (fst (shl_align mb eb ez)))
    with (Zpos (fst (shl_align ma ea ez) + fst (shl_align mb eb ez))).
  unfold binary_normalize.
  apply binary_round_canon; [unfold ez; lia | exact Hn |].
  rewrite sv_add, !shl_align_sv by (unfold ez; lia).
  now symmetry.
Qed.

(** The canonical form of [N * 2^E] for a mantissa of at most 24 bits. *)
Lemma canon_exists (N E : Z) :
  0 < N < 2 ^ 24 -> -125 <= E <= 104 ->
  exists m e, normal32 m e /\ sv m e = N * 2 ^ (E + 149).
Proof.
  intros HN HE. destruct N as [|p|p]; try lia.
  pose proof (digits2_bounds p) as [B1 B2].
  assert (Hd : Zpos (digits2_pos p) <= 24).
  { destruct (Z.le_gt_cases (Zpos (digits2_pos p)) 24); [assumption|].
    assert (2 ^ 24 <= 2 ^ (Zpos (digits2_pos p) - 1))
      by (apply Z.pow_le_mono_r; lia). lia. }
  destruct (24 - Zpos (digits2_pos p)) as [|k|k] eqn:Hk; try lia.
  - exists p, E. repeat split; lia.
  - exists (Pos.iter xO p k), (E - Zpos k). repeat split; try lia.
    + apply Pos2Z.inj. rewrite digits2_iter_xO. lia.
    + rewrite sv_shift by lia. reflexivity.
Qed.

Lemma canon_int (c : Z) :
  0 < c <= 2 ^ 24 ->
  exists m e, normal32 m e /\ sv m e = c * 2 ^ 149.
Proof.
  intros Hc. destruct (Z.eq_dec c (2 ^ 24)) as [->|Hne].
  - exists (2 ^ 23)%positive, 1. repeat split; try lia.
  - destruct (canon_exists c 0) as (m & e & Hn & Hsv); [lia | lia |].
    exists m, e. split; [exact Hn|]. rewrite Hsv. reflexivity.
Qed.

(** binary32 adds integers exactly up to [2^24]. *)
Lemma add32_of_int (a b : Z) :
  0 < a -> 0 < b -> a + b <= 2 ^ 24 ->
  add32 (of_int32 a) (of_int32 b) = of_int32 (a + b).
Proof.
  intros Ha Hb Hab.
  destruct (canon_int a) as (ma & ea & Hna & Hsa); [lia|].
  destruct (canon_int b) as (mb & eb & Hnb & Hsb); [lia|].
  destruct (canon_int (a + b)) as (mc & ec & Hnc & Hsc); [lia|].
  rewrite (of_int32_canon a ma ea), (of_int32_canon b mb eb),
    (of_int32_canon (a + b) mc ec) by (assumption || lia).
  apply add32_canon; try assumption.
  - destruct Hna; lia.
  - destruct Hnb; lia.
  - rewrite Hsa, Hsb, Hsc. lia.
Qed.

Example add32_of_int_59 :
  add32 (of_int32 59) (of_int32 59) = of_int32 118.
Proof. reflexivity. Qed.

(* ================================================================== *)
(** * Re-basing of the timestamps *)

Lemma add32_zero_l (c : Z) : 0 < c -> c <= 2 ^ 24 -> add32 zero32 (of_int32 c) = of_int32 c.
Proof.
  intros H1 H2. destruct (canon_int c) as (m & e & Hn & Hsv); [lia|].
  rewrite (of_int32_canon c m e) by assumption. reflexivity.
Qed.

Lemma offset_step (i d : Z) :
  0 <= i -> 0 < d -> (i + 1) * d <= 2 ^ 24 ->
  add32 (of_int32 (i * d)) (of_int32 d) = of_int32 ((i + 1) * d).
Proof.
  intros Hi Hd Hb. destruct (Z.eq_dec i 0) as [->|Hne].
  - rewrite Z.mul_0_l, Z.add_0_l, Z.mul_1_l. apply add32_zero_l; lia.
  - replace ((i + 1) * d) with (i * d + d) by lia.
    apply add32_of_int; nia.
Qed.

Section Rebase.

Variable engine : list pcmBuffer -> pcmBuffer -> option (list Segment.t).
Variable d : Z.
Variable step : float32.
Hypothesis Hd : 0 < d.

Lemma chunksLoop_stitch (chunks : list pcmBuffer) :
  forall i offset calls segments,
    0 <= i ->
    (chunks <> [] -> offset = of_int32 (i * d)) ->
    (2 <= len chunks -> step = of_int32 d) ->
    (i + len chunks - 1) * d <= 2 ^ 24 ->
    chunksLoop engine chunks i offset step calls segments
    = match stitchSpec engine d i calls chunks with
      | (calls1, Ok rest) => (calls1, Ok (segments ++ rest))
      | r => r
      end.
Proof.
  induction chunks as [|c chunks IH]; intros i offset calls segments Hi Hoff Hstep Hb;
    cbn [chunksLoop stitchSpec].
  - now rewrite app_nil_r.
  - destruct (transcribe engine calls c) as [segs|]; [|reflexivity].
    rewrite len_cons in Hb, Hstep. pose proof (len_nonneg chunks) as Hlen.
    rewrite (IH (i + 1) (add32 offset step)).
    + rewrite Hoff by discriminate.
      destruct (stitchSpec engine d (i + 1) (calls ++ [c]) chunks) as [calls1 [rest|e|]];
        try reflexivity.
      now rewrite <- app_assoc.
    + lia.
    + intros Hne.
      assert (1 <= len chunks).
      { destruct chunks; [congruence|]. rewrite len_cons. pose proof (len_nonneg chunks). lia. }
      rewrite Hoff by discriminate. rewrite Hstep by lia.
      apply offset_step; [lia | exact Hd | nia].
    + intros H2. apply Hstep. lia.
    + replace (i + 1 + len chunks - 1) with (i + (len chunks + 1) - 1) by lia.
      exact Hb.
Qed.

End Rebase.

(** C5, within the integers that float32 holds.  In chunked mode
    ([overlap < window]), while the offsets stay at most [2^24] seconds,
    the global segment list is made as the rule says: the segments that
    [transcribe] returns for chunk [i] have [float32(i * (window -
    overlap))] added to their start and to their end, and the lists of the
    chunks are concatenated in chunk order; the first chunk that fails ends
    the run. *)
Theorem transcribeChunks_rebase
  (engine : list pcmBuffer -> pcmBuffer -> option (list Segment.t))
  (win ovl : Z) (chunks : list pcmBuffer) :
  ovl < win ->
  (len chunks - 1) * (win - ovl) <= 2 ^ 24 ->
  transcribeChunks engine win ovl chunks
  = stitchSpec engine (win - ovl) 0 [] chunks.
Proof.
  intros Hlt Hb. unfold transcribeChunks.
  rewrite (chunksLoop_stitch engine (win - ovl)); try lia.
  - destruct (stitchSpec engine (win - ovl) 0 [] chunks) as [calls [rest|e|]];
      reflexivity.
  - intros _. reflexivity.
  - intros H2. unfold GoInt.sub. rewrite wrap64_small; [reflexivity|].
    unfold GoInt.in_int, GoInt.min_int, GoInt.max_int.
    assert (win - ovl <= 2 ^ 24) by nia. lia.
Qed.

(** The scenario of the specification: one segment "hello world" at
    [0.0, 1.0] in each of three chunks, window 60 s and overlap 1 s, comes
    out at [0, 1], [59, 60] and [118, 119]. *)
Lemma transcribeChunks_rebase_witness :
  let seg a b := Segment.mk (of_int32 a) (of_int32 b) (go "hello world") in
  let engine := fun (_ : list pcmBuffer) (_ : pcmBuffer) => Some [seg 0 1] in
  transcribeChunks engine 60 1 [[zero32]; [zero32]; [zero32]]
  = ([[zero32]; [zero32]; [zero32]], Ok [seg 0 1; seg 59 60; seg 118 119]).
Proof.
  cbv zeta. rewrite transcribeChunks_rebase; [reflexivity | lia | cbn; lia].
Defined.

(* ================================================================== *)
(** * The shape of the timestamps *)

Lemma allBelow_spec (P : Z -> bool) (n : nat) :
  allBelow n P = true -> forall z, 0 <= z < Z.of_nat n -> P z = true.
Proof.
  induction n as [|n IH]; intros H z Hz; [lia|].
  cbn [allBelow] in H. apply andb_true_iff in H as [H1 H2].
  destruct (Z.eq_dec z (Z.of_nat n)) as [->|Hne]; [exact H1|].
  apply IH; [exact H2 | lia].
Qed.

(** Two digits for the hours and minutes below 100. *)
Lemma d02_shape (n : Z) :
  0 <= n < 100 -> isTwoDigits (Fmt.d02 n) = true.
Proof.
  apply (allBelow_spec (fun z => isTwoDigits (Fmt.d02 z)) 100).
  vm_compute. reflexivity.
Qed.

Lemma frac_shape (r : Z) :
  0 <= r < 1000 -> isThreeDigits (Fmt.padZeros 3 (Fmt.udigits r)) = true.
Proof.
  apply (allBelow_spec (fun z => isThreeDigits (Fmt.padZeros 3 (Fmt.udigits z))) 1000).
  vm_compute. reflexivity.
Qed.

Lemma padZeros_app (a : nat) (x y : gostring) :
  Fmt.padZeros (a + List.length y) (x ++ y) = Fmt.padZeros a x ++ y.
Proof.
  unfold Fmt.padZeros. rewrite length_app, <- app_assoc. do 2 f_equal. lia.
Qed.

(** [dd.ddd] for the seconds, below 100 s. *)
Lemma milli_shape (n : Z) :
  0 <= n < 100000 -> isSeconds (Fmt.padZeros 6 (Fmt.milli n)) = true.
Proof.
  intros Hn. unfold Fmt.milli.
  assert (Hq : 0 <= n / 1000 < 100).
  { split; [apply Z.div_pos; lia | apply Z.div_lt_upper_bound; lia]. }
  assert (Hr : 0 <= n mod 1000 < 1000) by (apply Z.mod_pos_bound; lia).
  pose proof (d02_shape _ Hq) as H2. pose proof (frac_shape _ Hr) as H3.
  unfold Fmt.d02 in H2.
  destruct (Z.ltb_spec (n / 1000) 0); [lia|].
  destruct (Fmt.padZeros 3 (Fmt.udigits (n mod 1000))) as [|f1 [|f2 [|f3 [|f4 fr]]]];
    try discriminate H3.
  change (Fmt.padZeros 6 (Fmt.udigits (n / 1000) ++ ["."%char] ++ [f1; f2; f3]))
    with (Fmt.padZeros (2 + List.length ("."%char :: [f1; f2; f3]))
                       (Fmt.udigits (n / 1000) ++ "."%char :: [f1; f2; f3])).
  rewrite (padZeros_app 2 (Fmt.udigits (n / 1000)) ("."%char :: [f1; f2; f3])).
  destruct (Fmt.padZeros 2 (Fmt.udigits (n / 1000))) as [|s1 [|s2 [|s3 sr]]];
    try discriminate H2.
  cbn [app isSeconds]. cbn [isTwoDigits] in H2. cbn [isThreeDigits] in H3.
  apply andb_true_iff in H2 as [-> ->].
  apply andb_true_iff in H3 as [H3 ->]. apply andb_true_iff in H3 as [-> ->].
  reflexivity.
Qed.

Lemma bounded_inv (m : positive) (e : Z) :
  bounded prec32 emax32 m e = true ->
  -149 <= e <= 104 /\ Zpos m < 2 ^ 24.
Proof.
  unfold bounded, canonical_mantissa. intros H.
  apply andb_true_iff in H as [H1 H2].
  apply Z.eqb_eq in H1. apply Z.leb_le in H2. rewrite fexp32 in H1.
  unfold emax32, prec32 in H2.
  split; [lia|].
  pose proof (digits2_bounds m) as [_ B].
  assert (2 ^ Zpos (digits2_pos m) <= 2 ^ 24) by (apply Z.pow_le_mono_r; lia).
  lia.
Qed.

Lemma normal32_inv (m : positive) (e : Z) :
  normal32 m e -> 2 ^ 23 <= Zpos m < 2 ^ 24.
Proof.
  intros [Hd _]. pose proof (digits2_bounds m) as B. rewrite Hd in B. exact B.
Qed.

(** From the size of a number to the size of its exponent. *)
Lemma sv_exp_lower (m : positive) (e B : Z) :
  Zpos m < 2 ^ 24 -> -149 <= e -> 0 <= B ->
  2 ^ B * 2 ^ 149 <= sv m e -> B - 24 < e.
Proof.
  intros Hm He HB H. unfold sv in H.
  pose proof (pow2_pos (e + 149) ltac:(lia)) as Hp.
  assert (H1 : 2 ^ (B + 149) < 2 ^ (e + 173)).
  { rewrite Z.pow_add_r by lia.
    replace (e + 173) with (24 + (e + 149)) by lia.
    rewrite (Z.pow_add_r 2 24) by lia. nia. }
  apply Z.pow_lt_mono_r_iff in H1; lia.
Qed.

Lemma sv_exp_upper (m : positive) (e B : Z) :
  2 ^ 23 <= Zpos m -> -149 <= e -> 0 <= B ->
  sv m e < 2 ^ B * 2 ^ 149 -> e + 23 < B.
Proof.
  intros Hm He HB H. unfold sv in H.
  pose proof (pow2_pos (e + 149) ltac:(lia)) as Hp.
  assert (H1 : 2 ^ (e + 172) < 2 ^ (B + 149)).
  { rewrite (Z.pow_add_r 2 B) by lia.
    replace (e + 172) with (23 + (e + 149)) by lia.
    rewrite (Z.pow_add_r 2 23) by lia. nia. }
  apply Z.pow_lt_mono_r_iff in H1; lia.
Qed.

(** [int(t)] is the integer part. *)
Lemma to_int_bounds (m : positive) (e : Z) :
  -149 <= e -> sv m e < 360000 * 2 ^ 149 ->
  0 <= to_int (S754_finite false m e) < 360000
  /\ to_int (S754_finite false m e) * 2 ^ 149 <= sv m e
     < (to_int (S754_finite false m e) + 1) * 2 ^ 149.
Proof.
  intros He Hlt. unfold to_int, trunc. cbn [cond_Zopp].
  set (n := if 0 <=? e then Zpos m * 2 ^ e else Zpos m / 2 ^ (- e)).
  assert (Hn : 0 <= n /\ n * 2 ^ 149 <= sv m e < (n + 1) * 2 ^ 149).
  { unfold n, sv. destruct (Z.leb_spec 0 e) as [Hpos|Hneg].
    - rewrite (Z.add_comm e 149), (Z.pow_add_r 2 149 e) by lia.
      pose proof (pow2_pos e Hpos). pose proof (pow2_pos 149 ltac:(lia)).
      split; [nia|]. split; nia.
    - pose proof (pow2_pos (- e) ltac:(lia)) as Hden.
      pose proof (pow2_pos (e + 149) ltac:(lia)) as Hp.
      assert (E149 : 2 ^ 149 = 2 ^ (- e) * 2 ^ (e + 149)).
      { rewrite <- Z.pow_add_r by lia. f_equal. lia. }
      pose proof (Z.mul_div_le (Zpos m) (2 ^ (- e)) Hden) as Hq1.
      pose proof (Z.mul_succ_div_gt (Zpos m) (2 ^ (- e)) Hden) as Hq2.
      assert (0 <= Zpos m / 2 ^ (- e)) by (apply Z.div_pos; lia).
      split; [lia|]. rewrite E149. split; nia. }
  destruct Hn as [Hn0 [Hn1 Hn2]].
  pose proof (pow2_pos 149 ltac:(lia)) as H149.
  assert (Hn3 : n < 360000) by nia.
  unfold GoInt.min_int, GoInt.max_int.
  destruct (Z.leb_spec (- 2 ^ 63) n); [|lia].
  destruct (Z.leb_spec n (2 ^ 63 - 1)); [|lia].
  cbn [andb]. lia.
Qed.

(** Hours, minutes, and the whole seconds that [tsVTT] takes off. *)
Lemma hms_bounds (n : Z) :
  0 <= n < 360000 ->
  0 <= Z.quot n 3600 < 100
  /\ 0 <= Z.quot (Z.rem n 3600) 60 < 60
  /\ Z.quot n 3600 * 3600 + Z.quot (Z.rem n 3600) 60 * 60 <= n
     < Z.quot n 3600 * 3600 + Z.quot (Z.rem n 3600) 60 * 60 + 60
  /\ (Z.quot n 3600 * 3600 + Z.quot (Z.rem n 3600) 60 * 60 = 0
      \/ 60 <= Z.quot n 3600 * 3600 + Z.quot (Z.rem n 3600) 60 * 60).
Proof.
  intros Hn.
  rewrite Z.quot_div_nonneg, Z.rem_mod_nonneg by lia.
  pose proof (Z.mod_pos_bound n 3600 ltac:(lia)) as Hr.
  rewrite Z.quot_div_nonneg by lia.
  pose proof (Z.div_mod n 3600 ltac:(lia)) as E1.
  pose proof (Z.div_mod (n mod 3600) 60 ltac:(lia)) as E2.
  pose proof (Z.mod_pos_bound (n mod 3600) 60 ltac:(lia)) as Hr2.
  assert (0 <= n / 3600) by (apply Z.div_pos; lia).
  assert (0 <= (n mod 3600) / 60) by (apply Z.div_pos; lia).
  repeat split; lia.
Qed.

Lemma shl_align_fst_sv (m : positive) (e ez : Z) :
  -149 <= ez -> ez <= e ->
  Zpos (fst (shl_align m e ez)) * 2 ^ (ez + 149) = sv m e.
Proof. intros. rewrite <- shl_align_sv with (ez := ez) by lia. reflexivity. Qed.

(** Taking the whole minutes off a time leaves a binary32 number below
    60: the subtraction is exact. *)
Lemma sub32_seconds (m : positive) (e k : Z) :
  bounded prec32 emax32 m e = true ->
  (k = 0 \/ 60 <= k) -> k < 360000 ->
  k * 2 ^ 149 <= sv m e < (k + 60) * 2 ^ 149 ->
  secondsRange (sub32 (S754_finite false m e) (of_int32 k)).
Proof.
  intros Hb Hk Hk2 Hsv.
  destruct (bounded_inv m e Hb) as [He Hm].
  destruct Hk as [->|Hk].
  { right. exists m, e. split; [reflexivity|]. split; [lia|]. apply Hsv. }
  destruct (canon_int k) as (mk & ek & Hnk & Hsk); [lia|].
  rewrite (of_int32_canon k mk ek) by (assumption || lia).
  pose proof (normal32_inv mk ek Hnk) as Hmk.
  pose proof Hnk as [_ Hek].
  pose proof (pow2_pos 149 ltac:(lia)) as H149.
  assert (Hek_lo : -19 < ek).
  { apply (sv_exp_lower mk ek 5); try lia;
      try (rewrite Hsk; change (2 ^ 5) with 32; nia). }
  assert (Hek_hi : ek + 23 < 24).
  { apply (sv_exp_upper mk ek 24); try lia;
      try (rewrite Hsk; change (2 ^ 24) with 16777216; nia). }
  assert (He_lo : -19 < e).
  { apply (sv_exp_lower m e 5); try lia; try (change (2 ^ 5) with 32; nia). }
  unfold sub32, SFsub. cbn [cond_Zopp].
  set (ez := Z.min e ek).
  assert (Hez : -18 <= ez <= 0) by (unfold ez; lia).
  pose proof (shl_align_fst_sv m e ez ltac:(lia) ltac:(unfold ez; lia)) as H1.
  pose proof (shl_align_fst_sv mk ek ez ltac:(lia) ltac:(unfold ez; lia)) as H2.
  set (a := fst (shl_align m e ez)) in *.
  set (b := fst (shl_align mk ek ez)) in *.
  pose proof (pow2_pos (ez + 149) ltac:(lia)) as Hp.
  assert (HD : 0 <= Zpos a - Zpos b) by nia.
  assert (Hsmall : (Zpos a - Zpos b) * 2 ^ (ez + 149) < 60 * 2 ^ 149) by nia.
  destruct (Zpos a - Zpos b) as [|S|S] eqn:ED; [now left | | lia].
  right. unfold binary_normalize.
  assert (E149 : 2 ^ 149 = 2 ^ (- ez) * 2 ^ (ez + 149)).
  { rewrite <- Z.pow_add_r by lia. f_equal. lia. }
  assert (HS24 : Zpos S < 2 ^ 24).
  { assert (2 ^ (- ez) <= 2 ^ 18) by (apply Z.pow_le_mono_r; lia).
    change (2 ^ 18) with 262144 in *. change (2 ^ 24) with 16777216.
    rewrite E149 in Hsmall. nia. }
  destruct (canon_exists (Zpos S) ez) as (mc & ec & Hnc & Hsc); [lia | lia |].
  exists mc, ec.
  split.
  - apply binary_round_canon; [lia | exact Hnc |]. now symmetry.
  - destruct Hnc as [_ Hec]. split; [lia|].
    rewrite Hsc. exact Hsmall.
Qed.

Lemma roundMilli_bounds (m : positive) (e : Z) :
  -149 <= e -> sv m e < 60 * 2 ^ 149 ->
  0 <= Fmt.roundMilli m e < 100000.
Proof.
  intros He H. unfold Fmt.roundMilli, sv in *.
  pose proof (pow2_pos 149 ltac:(lia)) as H149.
  destruct (Z.leb_spec 0 e) as [Hpos|Hneg].
  - rewrite (Z.add_comm e 149), (Z.pow_add_r 2 149 e) in H by lia.
    pose proof (pow2_pos e Hpos). nia.
  - pose proof (pow2_pos (- e) ltac:(lia)) as Hden.
    pose proof (pow2_pos (e + 149) ltac:(lia)) as Hp.
    assert (E149 : 2 ^ 149 = 2 ^ (- e) * 2 ^ (e + 149)).
    { rewrite <- Z.pow_add_r by lia. f_equal. lia. }
    rewrite E149 in H.
    assert (Hm : Zpos m < 60 * 2 ^ (- e)) by nia.
    assert (Hq0 : 0 <= Zpos m * 1000 / 2 ^ (- e)) by (apply Z.div_pos; lia).
    assert (Hq1 : Zpos m * 1000 / 2 ^ (- e) < 60000)
      by (apply Z.div_lt_upper_bound; lia).
    destruct (2 * (Zpos m * 1000 mod 2 ^ (- e)) <? 2 ^ (- e)); [lia|].
    destruct (2 ^ (- e) <? 2 * (Zpos m * 1000 mod 2 ^ (- e))); [lia|].
    destruct (Z.even (Zpos m * 1000 / 2 ^ (- e))); lia.
Qed.

Lemma f06_3_shape (s : float32) :
  secondsRange s -> isSeconds (Fmt.f06_3 s) = true.
Proof.
  intros [->|(m & e & -> & He & Hsv)]; cbn [Fmt.f06_3].
  - apply milli_shape. lia.
  - apply milli_shape. now apply roundMilli_bounds.
Qed.

Lemma tsVTT_parts (t : float32) :
  stampRange t ->
  isTwoDigits (Fmt.d02 (Z.quot (to_int t) 3600)) = true
  /\ isTwoDigits (Fmt.d02 (Z.quot (Z.rem (to_int t) 3600) 60)) = true
  /\ isSeconds (Fmt.f06_3
       (sub32 t (of_int32 (Z.quot (to_int t) 3600 * 3600
                           + Z.quot (Z.rem (to_int t) 3600) 60 * 60)))) = true.
Proof.
  intros [->|(m & e & -> & Hb & Hsv)].
  - repeat split; reflexivity.
  - destruct (bounded_inv m e Hb) as [He Hm].
    destruct (to_int_bounds m e ltac:(lia) Hsv) as [Hn [Hn1 Hn2]].
    set (n := to_int (S754_finite false m e)) in *.
    destruct (hms_bounds n Hn) as (Hh & Hmm & Hk & Hk0).
    split; [apply d02_shape; exact Hh|]. split; [apply d02_shape; lia|].
    apply f06_3_shape, sub32_seconds; try assumption; lia.
Qed.

(** The timestamps of times in range have the shape HH:MM:SS.mmm, and
    HH:MM:SS,mmm in SRT. *)
Lemma timestamp_shape (t : float32) :
  stampRange t ->
  isTimestamp "."%char (tsVTT t) = true /\ isTimestamp ","%char (tsSRT t) = true.
Proof.
  intros Ht. destruct (tsVTT_parts t Ht) as (H1 & H2 & H3).
  unfold tsSRT, tsVTT.
  destruct (Fmt.d02 (Z.quot (to_int t) 3600)) as [|h1 [|h2 [|h3 hr]]];
    try discriminate H1.
  destruct (Fmt.d02 (Z.quot (Z.rem (to_int t) 3600) 60)) as [|m1 [|m2 [|m3 mr]]];
    try discriminate H2.
  destruct (Fmt.f06_3 _) as [|s1 [|s2 [|p [|f1 [|f2 [|f3 [|f4 fr]]]]]]];
    try discriminate H3.
  cbn [isTwoDigits] in H1, H2. cbn [isSeconds] in H3.
  repeat (match goal with
          | H : _ && _ = true |- _ => apply andb_true_iff in H as [? ?]
          end).
  assert (Hdig : forall c, isDigit c = true ->
                           (if Ascii.eqb c "."%char then ","%char else c) = c).
  { intros c Hc. destruct (Ascii.eqb_spec c "."%char) as [->|]; [discriminate Hc | reflexivity]. }
  match goal with H : Ascii.eqb p "."%char = true |- _ => apply Ascii.eqb_eq in H; subst p end.
  split.
  - cbn [app isTimestamp].
    repeat match goal with H : isDigit _ = true |- _ => rewrite H; clear H end.
    reflexivity.
  - cbn [app Strings.ReplaceAll map].
    rewrite (Hdig h1), (Hdig h2), (Hdig m1), (Hdig m2), (Hdig s1), (Hdig s2),
      (Hdig f1), (Hdig f2), (Hdig f3) by assumption.
    cbn [isTimestamp].
    repeat match goal with H : isDigit _ = true |- _ => rewrite H; clear H end.
    reflexivity.
Qed.

(* ================================================================== *)
(** * The caption writers *)

(** C7, as the code has it.  For every cue list the VTT text is the
    header "WEBVTT", an empty line, and one block per cue: the line
    [start --> end], the lines of the cue, an empty line, and no index.
    The SRT text is one block per cue: the index field of the cue on a
    line of its own, the line [start --> end], the lines of the cue, an
    empty line.  For times in range (zero, or positive and below 100
    hours) the timestamps have the shape HH:MM:SS.mmm in VTT and
    HH:MM:SS,mmm in SRT.  When the cues carry the indices 1, 2, ..., as
    the cues of [segmentsToCues] do, the SRT text of a list that is not
    empty starts with "1" and a newline. *)
Theorem writers_shape (cues : list Cue.t) :
  writeVTT cues
  = go "WEBVTT" ++ [nl; nl]
    ++ flat_map (fun c =>
                   tsVTT (Cue.Start c) ++ arrow ++ tsVTT (Cue.End c) ++ [nl]
                   ++ flat_map (fun line => line ++ [nl]) (Cue.Lines c)
                   ++ [nl]) cues
  /\ writeSRT cues
     = flat_map (fun c =>
                   Fmt.d (Cue.Idx c) ++ [nl]
                   ++ tsSRT (Cue.Start c) ++ arrow ++ tsSRT (Cue.End c) ++ [nl]
                   ++ flat_map (fun line => line ++ [nl]) (Cue.Lines c)
                   ++ [nl]) cues
  /\ (Forall (fun c => stampRange (Cue.Start c) /\ stampRange (Cue.End c)) cues ->
      Forall (fun c =>
                isTimestamp "."%char (tsVTT (Cue.Start c)) = true
                /\ isTimestamp "."%char (tsVTT (Cue.End c)) = true
                /\ isTimestamp ","%char (tsSRT (Cue.Start c)) = true
                /\ isTimestamp ","%char (tsSRT (Cue.End c)) = true) cues)
  /\ (map Cue.Idx cues = zseq 1 (List.length cues) -> cues <> [] ->
      exists rest, writeSRT cues = go "1" ++ [nl] ++ rest).
Proof.
  split; [|split; [|split]].
  - unfold writeVTT. cbn [app go list_ascii_of_string].
    do 8 f_equal.
  - reflexivity.
  - intros H. eapply Forall_impl; [|exact H].
    intros c [Hs He].
    destruct (timestamp_shape _ Hs) as [H1 H2].
    destruct (timestamp_shape _ He) as [H3 H4].
    repeat split; assumption.
  - intros Hidx Hne. destruct cues as [|c r]; [congruence|].
    cbn [map List.length zseq] in Hidx. injection Hidx as Hc _.
    cbn [writeSRT flat_map]. unfold srtCue at 1. rewrite Hc.
    eexists. cbn [Fmt.d]. rewrite <- !app_assoc. reflexivity.
Qed.

Lemma writers_shape_witness :
  let cues := [Cue.mk 1 (ratio32 0 1) (ratio32 36615 10) [go "aaa bbb"] (go "aaa bbb");
               Cue.mk 2 (ratio32 36615 10) (ratio32 359999 1) [go "ccc"] (go "ccc")] in
  Forall (fun c =>
            isTimestamp "."%char (tsVTT (Cue.Start c)) = true
            /\ isTimestamp "."%char (tsVTT (Cue.End c)) = true
            /\ isTimestamp ","%char (tsSRT (Cue.Start c)) = true
            /\ isTimestamp ","%char (tsSRT (Cue.End c)) = true) cues
  /\ exists rest, writeSRT cues = go "1" ++ [nl] ++ rest.
Proof.
  intros cues.
  destruct (writers_shape cues) as (_ & _ & H3 & H4).
  split.
  - apply H3. unfold cues.
    assert (R0 : stampRange (ratio32 0 1)) by (left; reflexivity).
    assert (R1 : stampRange (ratio32 36615 10)).
    { right. eexists _, _. split; [vm_compute; reflexivity|].
      split; vm_compute; reflexivity. }
    assert (R2 : stampRange (ratio32 359999 1)).
    { right. eexists _, _. split; [vm_compute; reflexivity|].
      split; vm_compute; reflexivity. }
    apply Forall_cons; [split; assumption|].
    apply Forall_cons; [split; assumption|].
    apply Forall_nil.
  - apply H4; [reflexivity | discriminate].
Defined.

(** Where the shape is lost: from 100 hours on the hours take three
    digits; and [writeSRT] prints the index field of the cue, whatever it
    is. *)
Lemma writers_counterexample :
  tsVTT (of_int32 360000) = go "100:00:00.000"
  /\ isTimestamp "."%char (tsVTT (of_int32 360000)) = false
  /\ writeSRT [Cue.mk 7 zero32 (of_int32 1) [go "hi"] (go "hi")]
     = go "7" ++ [nl] ++ go "00:00:00,000 --> 00:00:01,000" ++ [nl]
       ++ go "hi" ++ [nl; nl].
Proof. repeat split; vm_compute; reflexivity. Qed.

(* ================================================================== *)
(** * Beyond the range of the machine numbers *)

(** C4 without the bound on [w * sr]: the product wraps around.  With
    16000 samples per second and a window of [2^59 + 2] seconds the window
    is 32000 samples, and a buffer of 48000 samples comes out as two
    chunks of 32000 samples instead of one chunk of 48000. *)
Lemma chunkPCM_overflow :
  let pcm := repeat zero32 (Z.to_nat 48000) in
  let w := 2 ^ 59 + 2 in
  0 < len pcm /\ 0 < 1 /\ 1 < w
  /\ option_map (map len) (chunkPCM pcm 16000 w 1) = Some [32000; 32000]
  /\ Z.min (w * 16000) (len pcm - 0 * (w - 1) * 16000) = 48000.
Proof. cbv zeta. repeat split; vm_compute; reflexivity. Qed.

(** C5 without the bound on the offsets: the offset is a float32 sum.
    With [window - overlap = 2^24 + 1] seconds each step adds
    [float32(2^24 + 1) = 2^24], so the fourth chunk is shifted by
    [3 * 2^24 = 50331648] and not by [float32(3 * (2^24 + 1)) = 50331652]. *)
Lemma rebase_drift :
  let seg := Segment.mk (of_int32 0) (of_int32 1) (go "a") in
  let engine := fun (_ : list pcmBuffer) (_ : pcmBuffer) => Some [seg] in
  let chunks := [[zero32]; [zero32]; [zero32]; [zero32]] in
  match snd (transcribeChunks engine 16777217 0 chunks) with
  | Ok segments =>
    map Segment.Start segments
    = [of_int32 0; of_int32 16777216; of_int32 33554432; of_int32 50331648]
  | _ => False
  end
  /\ Segment.Start (shift (of_int32 (3 * 16777217)) seg) = of_int32 50331652
  /\ of_int32 50331652 <> of_int32 50331648
  /\ transcribeChunks engine 16777217 0 chunks
     <> stitchSpec engine 16777217 0 [] chunks.
Proof.
  cbv zeta. split; [vm_compute; reflexivity|].
  split; [vm_compute; reflexivity|].
  split; [vm_compute; discriminate|].
  vm_compute. discriminate.
Qed.

(* ================================================================== *)
(** * Further properties of the code *)

(** ** Decoding the samples *)

Lemma readSamples_even (data : list ascii) :
  forall samples,
    if Nat.even (List.length data)
    then exists more,
        readSamples data samples = Some (samples ++ more)
        /\ List.length more = Nat.div2 (List.length data)
        /\ Forall (fun x => exists b0 b1, x = sample b0 b1) more
    else readSamples data samples = None.
Proof.
  induction data as [data IH] using (well_founded_induction
                                       (Wf_nat.well_founded_ltof _ (@List.length ascii))).
  intros samples. destruct data as [|b0 [|b1 rest]].
  - exists []. cbn. rewrite app_nil_r. repeat split. constructor.
  - reflexivity.
  - change (Nat.even (List.length (b0 :: b1 :: rest)))
      with (Nat.even (List.length rest)).
    cbn [readSamples].
    specialize (IH rest ltac:(unfold Wf_nat.ltof; cbn; lia) (samples ++ [sample b0 b1])).
    destruct (Nat.even (List.length rest)); [|exact IH].
    destruct IH as (more & E & Hlen & Hall).
    exists (sample b0 b1 :: more). split; [|split].
    + rewrite E, <- app_assoc. reflexivity.
    + cbn [List.length Nat.div2]. now rewrite Hlen.
    + constructor; [now exists b0, b1 | exact Hall].
Qed.

(** X1. [readWavPCM16] skips the 44 bytes of the header and reads the
    rest two bytes at a time: with an even number of bytes after the
    header it returns half as many samples, with an odd number it returns
    the error of the failed second read; a file of 44 bytes or fewer gives
    no sample and no error. *)
Theorem readWavPCM16_length (content : list ascii) :
  (if Nat.even (List.length content - 44)
   then exists samples,
       readWavPCM16 content = Some samples
       /\ List.length samples = Nat.div2 (List.length content - 44)
   else readWavPCM16 content = None)
  /\ ((List.length content <= 44)%nat -> readWavPCM16 content = Some []).
Proof.
  unfold readWavPCM16. split.
  - pose proof (readSamples_even (skipn 44 content) []) as H.
    rewrite length_skipn in H.
    destruct (Nat.even (List.length content - 44)); [|exact H].
    destruct H as (more & E & Hlen & _). exists more. split; assumption.
  - intros H. rewrite skipn_all2 by exact H. reflexivity.
Qed.

Lemma readWavPCM16_length_witness :
  readWavPCM16 (repeat zero (44 + 1)) = None
  /\ readWavPCM16 (repeat zero 7) = Some [].
Proof.
  split.
  - apply (proj1 (readWavPCM16_length (repeat zero (44 + 1)))).
  - apply (proj2 (readWavPCM16_length (repeat zero 7))). cbn. lia.
Defined.

Lemma log2_below (a n : Z) : 0 <= a < 2 ^ n -> 0 < n -> Z.log2 a < n.
Proof.
  intros [H0 H1] Hn. destruct (Z.eq_dec a 0) as [->|Hne]; [cbn; lia|].
  apply Z.log2_lt_pow2; lia.
Qed.

Lemma int16_le_range (b0 b1 : ascii) : -32768 <= int16_le b0 b1 <= 32767.
Proof.
  pose proof (N_ascii_bounded b0) as H0. pose proof (N_ascii_bounded b1) as H1.
  unfold int16_le.
  set (a := Z.of_N (N_of_ascii b0)). set (b := Z.of_N (N_of_ascii b1)).
  assert (Ha : 0 <= a < 2 ^ 8) by (unfold a; change (2 ^ 8) with 256; lia).
  assert (Hb : 0 <= b < 2 ^ 8) by (unfold b; change (2 ^ 8) with 256; lia).
  assert (Hs : 0 <= Z.shiftl b 8 < 2 ^ 16).
  { rewrite Z.shiftl_mul_pow2 by lia.
    change (2 ^ 16) with (2 ^ 8 * 2 ^ 8). nia. }
  assert (Hu0 : 0 <= Z.lor a (Z.shiftl b 8)) by (apply Z.lor_nonneg; lia).
  assert (Hu1 : Z.lor a (Z.shiftl b 8) < 2 ^ 16).
  { destruct (Z.eq_dec (Z.lor a (Z.shiftl b 8)) 0) as [->|Hne]; [reflexivity|].
    apply Z.log2_lt_pow2; [lia|].
    rewrite Z.log2_lor by lia.
    apply Z.max_lub_lt; apply log2_below; lia. }
  change (2 ^ 16) with 65536 in Hu1.
  destruct (Z.ltb_spec (Z.lor a (Z.shiftl b 8)) 32768); lia.
Qed.

Lemma of_int32_neg_canon (c : Z) (m : positive) (e : Z) :
  0 < c -> normal32 m e -> sv m e = c * 2 ^ 149 ->
  of_int32 (- c) = S754_finite true m e.
Proof.
  intros Hc Hn Hsv. destruct c as [|p|p]; try lia.
  unfold of_int32, binary_normalize. cbn [Z.opp].
  apply binary_round_canon; [lia | exact Hn |].
  rewrite Hsv. reflexivity.
Qed.

(** Dividing a binary32 number by 32768 takes 15 off its exponent. *)
Lemma div32_32768 (s : bool) (m : positive) (e : Z) :
  normal32 m e -> -133 <= e ->
  SFdiv prec32 emax32 (S754_finite s m e) (of_int32 32768)
  = S754_finite s m (e - 15).
Proof.
  intros Hn He. pose proof Hn as [Hd Hr].
  change (of_int32 32768) with (S754_finite false 8388608 (-8)).
  unfold SFdiv, SFdiv_core_binary.
  cbn [Zdigits2]. rewrite Hd.
  change (Zpos (digits2_pos 8388608)) with 24.
  rewrite fexp32.
  replace (Z.min (Z.max (24 + e - (24 + -8) - 24) (-149)) (e - -8))
    with (e - 16) by lia.
  replace (e - -8 - (e - 16)) with 24 by lia.
  cbv iota. rewrite Z.shiftl_mul_pow2 by lia.
  assert (Hdiv : Z.div_eucl (Zpos m * 2 ^ 24) 8388608 = (Zpos m~0, 0)).
  { assert (Hq : (Zpos m * 2 ^ 24) / 8388608 = Zpos m~0).
    { replace (Zpos m * 2 ^ 24) with (Zpos m~0 * 8388608) by lia.
      apply Z.div_mul. lia. }
    assert (Hm : (Zpos m * 2 ^ 24) mod 8388608 = 0).
    { replace (Zpos m * 2 ^ 24) with (Zpos m~0 * 8388608) by lia.
      apply Z.mod_mul. lia. }
    unfold Z.div in Hq. unfold Z.modulo in Hm.
    destruct (Z.div_eucl (Zpos m * 2 ^ 24) 8388608) as [q r].
    cbn [fst snd] in *. congruence. }
  rewrite Hdiv. rewrite xorb_false_r.
  change (new_location 8388608 0) with loc_Exact.
  change (Zpos m~0) with (Zpos (Pos.iter xO m 1)).
  replace (e - 16) with (e - 15 - Zpos 1) by lia.
  apply binary_round_aux_shr. split; [exact Hd | lia].
Qed.

Lemma inUnit_below (s : bool) (m : positive) (e : Z) :
  e < -23 -> inUnit (S754_finite s m e) = true.
Proof.
  intros He. unfold inUnit.
  change (of_int32 (-1)) with (S754_finite true 8388608 (-23)).
  change (of_int32 1) with (S754_finite false 8388608 (-23)).
  unfold SFleb, SFltb, SFcompare.
  destruct s.
  - replace (-23 ?= e) with Gt by (symmetry; apply Z.compare_gt_iff; lia).
    reflexivity.
  - replace (e ?= -23) with Lt by (symmetry; apply Z.compare_lt_iff; lia).
    reflexivity.
Qed.

Lemma sample_inUnit (b0 b1 : ascii) : inUnit (sample b0 b1) = true.
Proof.
  unfold sample. pose proof (int16_le_range b0 b1) as Hv.
  pose proof (pow2_pos 149 ltac:(lia)) as H149.
  destruct (Z.lt_trichotomy (int16_le b0 b1) 0) as [Hneg|[Hz|Hpos]].
  - (* a negative sample *)
    set (c := - int16_le b0 b1).
    replace (int16_le b0 b1) with (- c) by (unfold c; lia).
    assert (Hc : 0 < c <= 32768) by (unfold c; lia).
    destruct (canon_int c) as (m & e & Hn & Hsv); [lia|].
    rewrite (of_int32_neg_canon c m e) by (assumption || lia).
    pose proof (normal32_inv m e Hn) as Hm. pose proof Hn as [_ Hr].
    assert (Hlo : 0 - 24 < e).
    { apply (sv_exp_lower m e 0); try lia;
        try (rewrite Hsv; change (2 ^ 0) with 1; lia). }
    assert (Hhi : e + 23 < 16).
    { apply (sv_exp_upper m e 16); try lia;
        try (rewrite Hsv; change (2 ^ 16) with 65536; lia). }
    rewrite div32_32768 by (assumption || lia).
    destruct (Z.eq_dec e (-8)) as [->|Hne]; [|apply inUnit_below; lia].
    assert (Hm8 : m = 8388608%positive).
    { unfold sv in Hsv. change (2 ^ (-8 + 149)) with (2 ^ 141) in Hsv.
      change (2 ^ 149) with (2 ^ 8 * 2 ^ 141) in Hsv.
      pose proof (pow2_pos 141 ltac:(lia)).
      assert (Zpos m = c * 2 ^ 8) by nia.
      change (2 ^ 8) with 256 in *. change (2 ^ 23) with 8388608 in *. lia. }
    subst m. reflexivity.
  - rewrite Hz. reflexivity.
  - (* a positive sample *)
    destruct (canon_int (int16_le b0 b1)) as (m & e & Hn & Hsv); [lia|].
    rewrite (of_int32_canon _ m e) by (assumption || lia).
    pose proof (normal32_inv m e Hn) as Hm. pose proof Hn as [_ Hr].
    assert (Hlo : 0 - 24 < e).
    { apply (sv_exp_lower m e 0); try lia;
        try (rewrite Hsv; change (2 ^ 0) with 1; lia). }
    assert (Hhi : e + 23 < 15).
    { apply (sv_exp_upper m e 15); try lia;
        try (rewrite Hsv; change (2 ^ 15) with 32768; lia). }
    rewrite div32_32768 by (assumption || lia).
    apply inUnit_below. lia.
Qed.

(** X2. Every sample that [readWavPCM16] returns is a number from -1
    (included) to 1 (excluded): never an infinity, never NaN. *)
Theorem readWavPCM16_range (content : list ascii) (samples : list float32) :
  readWavPCM16 content = Some samples ->
  Forall (fun x => inUnit x = true) samples.
Proof.
  unfold readWavPCM16. intros H.
  pose proof (readSamples_even (skipn 44 content) []) as E.
  destruct (Nat.even (List.length (skipn 44 content))); [|congruence].
  destruct E as (more & E & _ & Hall). rewrite E in H. injection H as <-.
  eapply Forall_impl; [|exact Hall].
  intros x (b0 & b1 & ->). apply sample_inUnit.
Qed.

Lemma readWavPCM16_range_witness :
  Forall (fun x => inUnit x = true)
         [sample "255"%char "127"%char; sample "000"%char "128"%char].
Proof.
  apply (readWavPCM16_range
           (repeat zero 44 ++ ["255"; "127"; "000"; "128"]%char)).
  reflexivity.
Defined.

(** ** Truncation and the search of the remaining words *)




Lemma wordsJoinRemainingFrom_found (l : list gostring) (from : gostring) :
  wordsJoinRemainingFrom l from true = l.
Proof. induction l as [|w l IH]; cbn; [reflexivity|]. now rewrite IH. Qed.

(** X4. [wordsJoinRemaining] returns what follows the first occurrence of
    the word in the list, whichever occurrence the caller was reading, and
    nothing when the word does not occur. *)
Theorem wordsJoinRemaining_first (all : list gostring) (from : gostring) :
  (forall pre post,
      all = pre ++ from :: post -> ~ In from pre ->
      wordsJoinRemaining all from = post)
  /\ (~ In from all -> wordsJoinRemaining all from = []).
Proof.
  unfold wordsJoinRemaining. split.
  - intros pre post -> Hpre.
    induction pre as [|w pre IH]; cbn [app wordsJoinRemainingFrom negb andb].
    + rewrite streqb_refl. apply wordsJoinRemainingFrom_found.
    + destruct (streqb w from) eqn:E.
      * apply streqb_eq in E. subst w. exfalso. apply Hpre. now left.
      * apply IH. intros H. apply Hpre. now right.
  - induction all as [|w all IH]; intros Hn; cbn [wordsJoinRemainingFrom negb andb];
      [reflexivity|].
    destruct (streqb w from) eqn:E.
    + apply streqb_eq in E. subst w. exfalso. apply Hn. now left.
    + apply IH. intros H. apply Hn. now right.
Qed.

Lemma wordsJoinRemaining_first_witness :
  wordsJoinRemaining [go "ab"; go "c"; go "ab"; go "d"] (go "ab")
  = [go "c"; go "ab"; go "d"]
  /\ wordsJoinRemaining [go "ab"; go "c"] (go "x") = [].
Proof.
  split.
  - apply (proj1 (wordsJoinRemaining_first _ (go "ab")) [] [go "c"; go "ab"; go "d"]);
      [reflexivity | intros []].
  - apply (proj2 (wordsJoinRemaining_first _ (go "x"))).
    intros [H|[H|[]]]; discriminate H.
Defined.

(** ** Wrapping a text into lines *)

Lemma Join_head_nonempty (w : gostring) (ws : list gostring) (sep : gostring) :
  w <> [] -> Strings.Join (w :: ws) sep <> [].
Proof.
  intros Hw. destruct ws as [|y ws]; [exact Hw|].
  rewrite Join_cons by discriminate.
  intros E. apply app_eq_nil in E as [E _]. contradiction.
Qed.

Lemma Join_app_len (sep : gostring) (B : list gostring) :
  forall A, A <> [] ->
    len (Strings.Join A sep) <= len (Strings.Join (A ++ B) sep).
Proof.
  induction B as [|b B IH]; intros A HA.
  - rewrite app_nil_r. lia.
  - replace (A ++ b :: B) with ((A ++ [b]) ++ B) by now rewrite <- app_assoc.
    specialize (IH (A ++ [b])).
    rewrite Join_snoc in IH at 1 by exact HA.
    rewrite !len_app in IH.
    pose proof (len_nonneg sep). pose proof (len_nonneg b).
    assert (A ++ [b] <> []) by (destruct A; discriminate).
    specialize (IH ltac:(assumption)). lia.
Qed.

Lemma Join_last_extend (lines : list gostring) (curr w sep : gostring) :
  Strings.Join (lines ++ [curr ++ sep ++ w]) sep
  = Strings.Join (lines ++ [curr]) sep ++ sep ++ w.
Proof.
  destruct lines as [|l lines]; [reflexivity|].
  rewrite !Join_snoc by discriminate.
  now rewrite <- !app_assoc.
Qed.

Lemma wrapLoop_fits (all : list gostring) (mc ml : Z) :
  1 <= ml ->
  forall rest cw,
    Strings.Join cw [space] <> [] -> cw <> [] ->
    len (Strings.Join (cw ++ rest) [space]) <= mc ->
    wrapLoop all rest mc ml [] (Strings.Join cw [space])
    = Some [Strings.Join (cw ++ rest) [space]].
Proof.
  intros Hml.
  induction rest as [|w rest IH]; intros cw Hj Hcw Hlen; cbn [wrapLoop]; cbv zeta.
  - rewrite app_nil_r.
    destruct (isEmpty (Strings.Join cw [space])) eqn:E;
      [apply isEmpty_true in E; contradiction|].
    unfold capLines. cbn [app]. rewrite len_cons, len_nil.
    destruct (Z.ltb_spec ml (0 + 1)); [lia | reflexivity].
  - destruct (isEmpty (Strings.Join cw [space])) eqn:E;
      [apply isEmpty_true in E; contradiction|].
    replace (cw ++ w :: rest) with ((cw ++ [w]) ++ rest) in *
      by now rewrite <- app_assoc.
    assert (Hcw' : cw ++ [w] <> []) by (destruct cw; discriminate).
    pose proof (Join_app_len [space] rest (cw ++ [w]) Hcw') as Hle.
    rewrite Join_snoc in Hle by exact Hcw.
    rewrite !len_app in Hle.
    change (len [space]) with 1 in Hle.
    destruct (Z.leb_spec (len (Strings.Join cw [space]) + 1 + len w) mc); [|lia].
    rewrite <- (Join_snoc cw w [space] Hcw).
    apply IH; [|exact Hcw'|exact Hlen].
    rewrite Join_snoc by exact Hcw.
    intros E0. apply app_eq_nil in E0 as [E0 _]. contradiction.
Qed.

Lemma wrapLoop_start_fits (all words : list gostring) (mc ml : Z) :
  1 <= ml -> words <> [] -> Forall isWord words ->
  len (Strings.Join words [space]) <= mc ->
  wrapLoop all words mc ml [] [] = Some [Strings.Join words [space]].
Proof.
  intros Hml Hne HW Hlen.
  destruct words as [|w ws]; [congruence|].
  inversion HW as [|? ? [Hw _] _]; subst.
  change (wrapLoop all (w :: ws) mc ml [] [])
    with (wrapLoop all ws mc ml [] (Strings.Join [w] [space])).
  change (w :: ws) with ([w] ++ ws).
  apply wrapLoop_fits; [exact Hml | exact Hw | discriminate | exact Hlen].
Qed.

(** X5. A text whose words, joined by single blanks, fit [maxChars] is
    wrapped to that one line, whenever at least one line is allowed. *)
Theorem wrapWords_fits (s : gostring) (mc ml : Z) :
  fieldsPreservePunct s <> [] ->
  len (Strings.Join (fieldsPreservePunct s) [space]) <= mc ->
  1 <= ml ->
  wrapWords s mc ml = Some [Strings.Join (fieldsPreservePunct s) [space]].
Proof.
  intros Hne Hlen Hml. unfold wrapWords.
  apply wrapLoop_start_fits; [exact Hml | exact Hne | apply Fields_words | exact Hlen].
Qed.

Lemma wrapWords_fits_witness :
  wrapWords (go "  one two ") 7 1 = Some [go "one two"].
Proof.
  apply (wrapWords_fits (go "  one two ") 7 1);
    [vm_compute; discriminate | vm_compute; discriminate | lia].
Defined.

Lemma wrapLoop_negative (all : list gostring) (mc ml : Z) :
  ml < 0 ->
  forall ws lines curr, wrapLoop all ws mc ml lines curr = None.
Proof.
  intros Hml.
  assert (Hcap : forall l, capLines l ml = None).
  { intros l. unfold capLines. pose proof (len_nonneg l).
    destruct (Z.ltb_spec ml (len l)); [|lia].
    unfold slice. destruct (Z.leb_spec 0 ml); [lia|]. reflexivity. }
  induction ws as [|w ws IH]; intros lines curr; cbn [wrapLoop]; cbv zeta.
  - apply Hcap.
  - destruct (isEmpty curr); [apply IH|].
    destruct (len curr + 1 + len w <=? mc); [apply IH|].
    pose proof (len_nonneg (lines ++ [curr])).
    destruct (Z.eqb_spec (len (lines ++ [curr])) (ml - 1)); [lia|].
    apply IH.
Qed.

Lemma capLines_zero (l : list gostring) : capLines l 0 = Some [].
Proof.
  unfold capLines. pose proof (len_nonneg l).
  destruct (Z.ltb_spec 0 (len l)).
  - rewrite slice_prefix by lia. reflexivity.
  - now rewrite (len_zero_nil l) by lia.
Qed.

Lemma wrapLoop_zero (all : list gostring) (mc : Z) :
  forall ws lines curr, wrapLoop all ws mc 0 lines curr = Some [].
Proof.
  induction ws as [|w ws IH]; intros lines curr; cbn [wrapLoop]; cbv zeta.
  - apply capLines_zero.
  - destruct (isEmpty curr); [apply IH|].
    destruct (len curr + 1 + len w <=? mc); [apply IH|].
    pose proof (len_nonneg (lines ++ [curr])).
    destruct (Z.eqb_spec (len (lines ++ [curr])) (0 - 1)); [lia|].
    apply IH.
Qed.

(** X6. The degenerate line limits of [wrapWords]: a negative [maxLines]
    makes it panic on every text, the empty one included; with zero lines
    allowed, or with a text without a word, it returns no line. *)
Theorem wrapWords_degenerate (s : gostring) (mc ml : Z) :
  (ml < 0 -> wrapWords s mc ml = None)
  /\ (ml = 0 -> wrapWords s mc ml = Some [])
  /\ (0 <= ml -> fieldsPreservePunct s = [] -> wrapWords s mc ml = Some []).
Proof.
  unfold wrapWords. split; [|split].
  - intros H. now apply wrapLoop_negative.
  - intros ->. apply wrapLoop_zero.
  - intros Hml ->. cbn [wrapLoop isEmpty]. unfold capLines.
    rewrite len_nil. destruct (Z.ltb_spec ml 0); [lia | reflexivity].
Qed.

Lemma wrapWords_degenerate_witness :
  wrapWords (go "a b") 5 (-1) = None
  /\ wrapWords (go "a b") 5 0 = Some []
  /\ wrapWords (go "  ") 5 2 = Some [].
Proof.
  split; [|split].
  - apply (proj1 (wrapWords_degenerate (go "a b") 5 (-1))). lia.
  - apply (proj1 (proj2 (wrapWords_degenerate (go "a b") 5 0))). reflexivity.
  - apply (proj2 (proj2 (wrapWords_degenerate (go "  ") 5 2))); [lia | reflexivity].
Defined.

Lemma capLines_len (l out : list gostring) (ml : Z) :
  capLines l ml = Some out -> len out = Z.min (len l) ml.
Proof.
  unfold capLines. intros H.
  destruct (Z.ltb_spec ml (len l)) as [Hlt|Hge].
  - destruct (Z.lt_ge_cases ml 0) as [H0|H0].
    { unfold slice in H. destruct (Z.leb_spec 0 ml); [lia | discriminate]. }
    rewrite slice_prefix in H by lia. injection H as <-.
    rewrite len_firstn; lia.
  - injection H as <-. lia.
Qed.

Lemma wrapLoop_lossless (all : list gostring) (mc ml : Z) :
  forall ws lines curr consumed out,
    Forall isWord ws ->
    (curr = [] -> lines = [] /\ consumed = []) ->
    (curr <> [] ->
     consumed <> []
     /\ Strings.Join (lines ++ [curr]) [space] = Strings.Join consumed [space]) ->
    wrapLoop all ws mc ml lines curr = Some out ->
    len out + 2 <= ml ->
    Strings.Join out [space] = Strings.Join (consumed ++ ws) [space].
Proof.
  assert (Hcap : forall l out, capLines l ml = Some out -> len out + 2 <= ml ->
                   out = l).
  { intros l out H Hlen. unfold capLines in H.
    destruct (Z.ltb_spec ml (len l)) as [Hlt|Hge]; [|congruence].
    pose proof (len_nonneg out).
    rewrite slice_prefix in H by lia. injection H as <-.
    rewrite len_firstn in Hlen by lia. lia. }
  induction ws as [|w ws IH]; intros lines curr consumed out HW Hemp Hcur Hrun Hlen;
    cbn [wrapLoop] in Hrun; cbv zeta in Hrun.
  - rewrite app_nil_r. apply Hcap in Hrun; [|exact Hlen]. subst out.
    destruct curr as [|c curr]; cbn [isEmpty].
    + destruct (Hemp eq_refl) as [-> ->]. reflexivity.
    + now apply Hcur.
  - inversion HW as [|? ? [Hw _] HW']; subst.
    replace (consumed ++ w :: ws) with ((consumed ++ [w]) ++ ws)
      by now rewrite <- app_assoc.
    destruct curr as [|c curr]; cbn [isEmpty] in Hrun.
    + destruct (Hemp eq_refl) as [-> ->].
      apply (IH [] w [w] out HW'); [contradiction | | exact Hrun | exact Hlen].
      intros _. split; [discriminate | reflexivity].
    + destruct Hcur as [Hcons Hjoin]; [discriminate|].
      assert (Hsn : consumed ++ [w] <> []) by (destruct consumed; discriminate).
      destruct (len (c :: curr) + 1 + len w <=? mc).
      * apply (IH lines ((c :: curr) ++ [space] ++ w) (consumed ++ [w]) out HW');
          [discriminate | | exact Hrun | exact Hlen].
        intros _. split; [exact Hsn|].
        etransitivity; [apply (Join_last_extend lines (c :: curr) w [space])|].
        rewrite (Join_snoc consumed w [space] Hcons). f_equal. exact Hjoin.
      * lazymatch type of Hrun with
        | (if ?b then _ else _) = _ => destruct b eqn:Hfull
        end.
        { exfalso. apply Z.eqb_eq in Hfull.
          destruct (isEmpty (Strings.Join (wordsJoinRemaining all w) [space])).
          - apply capLines_len in Hrun. lia.
          - destruct (softTruncate _ mc) as [last|]; [|discriminate].
            apply capLines_len in Hrun.
            rewrite len_app, len_cons, len_nil in Hrun. lia. }
        apply (IH (lines ++ [c :: curr]) w (consumed ++ [w]) out HW');
          [intros ->; contradiction | | exact Hrun | exact Hlen].
        intros _. split; [exact Hsn|].
        etransitivity; [apply Join_snoc; destruct lines; discriminate|].
        rewrite (Join_snoc consumed w [space] Hcons). f_equal. exact Hjoin.
Qed.

(** X7. When [wrapWords] returns at least two lines fewer than allowed,
    no word was lost: the lines joined by blanks are the words of the text
    joined by blanks. *)
Theorem wrapWords_lossless (s : gostring) (mc ml : Z) (lines : list gostring) :
  wrapWords s mc ml = Some lines ->
  len lines + 2 <= ml ->
  Strings.Join lines [space] = Strings.Join (fieldsPreservePunct s) [space].
Proof.
  unfold wrapWords. intros Hrun Hlen.
  apply (wrapLoop_lossless (fieldsPreservePunct s) mc ml
           (fieldsPreservePunct s) [] [] [] lines);
    [apply Fields_words | auto | congruence | exact Hrun | exact Hlen].
Qed.

Lemma wrapWords_lossless_witness :
  wrapWords (go "aa bb cc dd") 5 4 = Some [go "aa bb"; go "cc dd"]
  /\ Strings.Join [go "aa bb"; go "cc dd"] [space]
     = Strings.Join (fieldsPreservePunct (go "aa bb cc dd")) [space].
Proof.
  split; [reflexivity|].
  apply (wrapWords_lossless (go "aa bb cc dd") 5 4); [reflexivity | vm_compute; discriminate].
Defined.

(** ** De-duplication *)

Lemma dedupeOverlap_cons (s0 : Segment.t) (rest : list Segment.t) (ov : float32) :
  dedupeOverlap (s0 :: rest) ov = s0 :: dedupeScan ov s0 rest.
Proof.
  unfold dedupeOverlap. destruct rest as [|s1 r]; [reflexivity|].
  replace (len (s0 :: s1 :: r) <? 2) with false.
  - apply (dedupeLoop_scan ov (s1 :: r) [] s0).
  - symmetry. apply Z.ltb_ge. rewrite !len_cons. pose proof (len_nonneg r). lia.
Qed.

Lemma dedupeScan_neighbours (ov : float32) (cands : list Segment.t) :
  forall lk,
    neighbours (fun a b => isDuplicate ov a b = false)
               (lk :: dedupeScan ov lk cands).
Proof.
  induction cands as [|c r IH]; intros lk; cbn [dedupeScan].
  - exact I.
  - destruct (isDuplicate ov lk c) eqn:E; [apply IH|].
    split; [exact E | apply IH].
Qed.

Lemma dedupeScan_fixed (ov : float32) (l : list Segment.t) :
  forall lk,
    neighbours (fun a b => isDuplicate ov a b = false) (lk :: l) ->
    dedupeScan ov lk l = l.
Proof.
  induction l as [|c r IH]; intros lk H; cbn [dedupeScan]; [reflexivity|].
  destruct H as [E H]. rewrite E. f_equal. now apply IH.
Qed.

(** X8. In the list that [dedupeOverlap] returns for two segments or more
    no segment is a duplicate of the one before it; a shorter list is
    returned as it is. *)
Theorem dedupeOverlap_no_adjacent (segs : list Segment.t) (overlap : float32) :
  neighbours (fun a b => isDuplicate overlap a b = false)
             (dedupeOverlap segs overlap).
Proof.
  destruct segs as [|s0 rest]; [exact I|].
  rewrite dedupeOverlap_cons. apply dedupeScan_neighbours.
Qed.

(** X9. [dedupeOverlap] is idempotent: a second pass with the same overlap
    drops nothing more. *)
Theorem dedupeOverlap_idempotent (segs : list Segment.t) (overlap : float32) :
  dedupeOverlap (dedupeOverlap segs overlap) overlap = dedupeOverlap segs overlap.
Proof.
  destruct segs as [|s0 rest]; [reflexivity|].
  rewrite !dedupeOverlap_cons. f_equal.
  apply dedupeScan_fixed, dedupeScan_neighbours.
Qed.

(** ** Merging short cues *)

Lemma mergeLoop_long (d : float64) (cues : list Cue.t) :
  forall out,
    Forall (fun c => isLong d c = true) (removelast cues) ->
    mergeLoop d cues out = Some (out ++ cues).
Proof.
  induction cues as [|c [|next rest] IH]; intros out H.
  - cbn. now rewrite app_nil_r.
  - reflexivity.
  - rewrite mergeLoop_cons2.
    change (removelast (c :: next :: rest)) with (c :: removelast (next :: rest)) in H.
    inversion H as [|? ? Hc Hrest]; subst. unfold isLong in Hc. rewrite Hc.
    rewrite IH by exact Hrest. now rewrite <- app_assoc.
Qed.

Lemma reindexFrom_lines (out : list Cue.t) :
  forall i, map Cue.Lines (reindexFrom i out) = map Cue.Lines out.
Proof. induction out as [|c out IH]; intros i; cbn; [reflexivity|]. now rewrite IH. Qed.

Lemma reindexFrom_raw (out : list Cue.t) :
  forall i, map Cue.RawText (reindexFrom i out) = map Cue.RawText out.
Proof. induction out as [|c out IH]; intros i; cbn; [reflexivity|]. now rewrite IH. Qed.

(** X10. When every cue but the last lasts at least [minDur], the merge
    pass merges nothing: it returns as many cues, each with the lines, the
    times and the text it had, so the lines keep the wrapping they were
    given. *)
Theorem mergeShortCues_no_short (cues : list Cue.t) (minDur : float64) :
  Forall (fun c => isLong minDur c = true) (removelast cues) ->
  exists out,
    mergeShortCues cues minDur = Some out
    /\ map Cue.Lines out = map Cue.Lines cues
    /\ map span out = map span cues
    /\ map Cue.RawText out = map Cue.RawText cues.
Proof.
  intros H. unfold mergeShortCues.
  destruct (len cues <? 2); [now exists cues|].
  rewrite (mergeLoop_long minDur cues [] H). cbn [app].
  exists (reindexFrom 0 cues).
  now rewrite reindexFrom_lines, reindexFrom_span, reindexFrom_raw.
Qed.

Lemma mergeShortCues_no_short_witness :
  let c1 := Cue.mk 7 (of_int32 0) (of_int32 2) [go "a"; go "b"; go "c"] (go "a b c") in
  let c2 := Cue.mk 9 (of_int32 2) (of_int32 3) [go "d"] (go "d") in
  let c3 := Cue.mk 4 (of_int32 3) (of_int32 3) [go "e"] (go "e") in
  exists out,
    mergeShortCues [c1; c2; c3] c0_6 = Some out
    /\ map Cue.Lines out = map Cue.Lines [c1; c2; c3]
    /\ map span out = map span [c1; c2; c3]
    /\ map Cue.RawText out = map Cue.RawText [c1; c2; c3].
Proof.
  intros c1 c2 c3.
  apply (mergeShortCues_no_short [c1; c2; c3] c0_6).
  repeat constructor.
Defined.

(** ** Chunking without overlap, without progress, and of a short buffer *)

Lemma Forall_removelast {A : Type} (P : A -> Prop) (l : list A) :
  Forall P l -> Forall P (removelast l).
Proof.
  induction l as [|x [|y l] IH]; intros H; cbn [removelast]; [constructor..|].
  inversion H; subst. constructor; auto.
Qed.

Lemma window_suffix {A : Type} (done rest : list A) (n : Z) :
  0 <= n ->
  window (done ++ rest) (len done) (len done + n) = firstn (Z.to_nat n) rest.
Proof.
  intros Hn. unfold window, len.
  rewrite Nat2Z.id, skipn_app, skipn_all, Nat.sub_diag. cbn [app skipn].
  f_equal. lia.
Qed.

Lemma chunkLoop_partition {A : Type} (pcm : list A) (win : Z) :
  0 < win -> win + len pcm <= GoInt.max_int ->
  forall fuel done rest out,
    pcm = done ++ rest ->
    List.concat out = done ->
    Forall (fun c => len c = win) out ->
    len rest < Z.of_nat fuel ->
    exists res,
      chunkLoop fuel pcm win 0 (len done) out = Some res
      /\ List.concat res = pcm
      /\ Forall (fun c => len c = win) (removelast res)
      /\ Forall (fun c => 0 < len c <= win) res.
Proof.
  intros Hwin Hrange. unfold GoInt.max_int in Hrange.
  induction fuel as [|fuel IH]; intros done rest out Hpcm Hcat Hout Hfuel.
  { pose proof (len_nonneg rest). lia. }
  assert (Hbounds : Forall (fun c : list A => 0 < len c <= win) out).
  { eapply Forall_impl; [|exact Hout]. cbn. intros c Hc. lia. }
  assert (HL : len pcm = len done + len rest) by (rewrite Hpcm; apply len_app).
  pose proof (len_nonneg done) as Hd. pose proof (len_nonneg rest) as Hr.
  cbn [chunkLoop]. cbv zeta.
  destruct (Z.ltb_spec (len done) (len pcm)) as [Hlt|Hge].
  - assert (Hadd : GoInt.add (len done) win = len done + win).
    { apply wrap64_small. unfold GoInt.in_int, GoInt.min_int, GoInt.max_int. lia. }
    rewrite Hadd.
    destruct (Z.ltb_spec (len pcm) (len done + win)) as [Hshort|Hfull].
    + rewrite slice_window by lia. rewrite Z.eqb_refl.
      assert (Hc : window pcm (len done) (len pcm) = rest).
      { rewrite HL, Hpcm, window_suffix by lia.
        unfold len. rewrite Nat2Z.id. apply firstn_all. }
      rewrite Hc. exists (out ++ [rest]). split; [reflexivity|].
      split; [|split].
      * rewrite concat_app, Hcat. cbn. now rewrite app_nil_r.
      * rewrite removelast_last. exact Hout.
      * apply Forall_app. split; [exact Hbounds|]. constructor; [lia | constructor].
    + rewrite slice_window by lia.
      assert (Hc : window pcm (len done) (len done + win)
                   = firstn (Z.to_nat win) rest).
      { rewrite Hpcm. apply window_suffix. lia. }
      rewrite Hc.
      assert (Hlc : len (firstn (Z.to_nat win) rest) = win)
        by (apply len_firstn; lia).
      destruct (Z.eqb_spec (len done + win) (len pcm)) as [Hend|Hmore].
      * assert (Hall : firstn (Z.to_nat win) rest = rest).
        { replace (Z.to_nat win) with (List.length rest)
            by (unfold len in *; lia).
          apply firstn_all. }
        rewrite Hall. exists (out ++ [rest]). split; [reflexivity|].
        split; [|split].
        -- rewrite concat_app, Hcat. cbn. now rewrite app_nil_r.
        -- rewrite removelast_last. exact Hout.
        -- apply Forall_app. split; [exact Hbounds|]. constructor; [lia | constructor].
      * assert (Hstep : GoInt.add (len done) (GoInt.sub win 0)
                        = len (done ++ firstn (Z.to_nat win) rest)).
        { unfold GoInt.sub. rewrite Z.sub_0_r.
          rewrite (wrap64_small win)
            by (unfold GoInt.in_int, GoInt.min_int, GoInt.max_int; lia).
          rewrite Hadd, len_app, Hlc. reflexivity. }
        rewrite Hstep.
        apply (IH (done ++ firstn (Z.to_nat win) rest) (skipn (Z.to_nat win) rest)).
        -- now rewrite <- app_assoc, firstn_skipn.
        -- rewrite concat_app, Hcat. cbn. now rewrite app_nil_r.
        -- apply Forall_app. split; [exact Hout|]. constructor; [exact Hlc | constructor].
        -- unfold len in *. rewrite length_skipn. lia.
  - assert (rest = []) by (apply len_zero_nil; lia). subst rest.
    rewrite app_nil_r in Hpcm. subst done.
    exists out. split; [reflexivity|]. split; [exact Hcat|].
    split; [now apply Forall_removelast | exact Hbounds].
Qed.

(** X11. With an overlap of zero, a positive window and sample rate, and
    [w * sr + L] within the range of [int], the chunks partition the
    buffer: put end to end they are the buffer, none is empty, and all but
    the last are exactly one window long. *)
Theorem chunkPCM_partition {A : Type} (pcm : list A) (sr w : Z) :
  0 < sr -> 0 < w -> w * sr + len pcm <= GoInt.max_int ->
  exists chunks,
    chunkPCM pcm sr w 0 = Some chunks
    /\ List.concat chunks = pcm
    /\ Forall (fun c => len c = w * sr) (removelast chunks)
    /\ Forall (fun c => 0 < len c <= w * sr) chunks.
Proof.
  intros Hsr Hw Hrange.
  pose proof Hrange as Hrange'. unfold GoInt.max_int in Hrange'.
  pose proof (len_nonneg pcm) as HL.
  assert (Hwsr : 0 < w * sr) by nia.
  unfold chunkPCM, GoInt.mul. cbv zeta.
  rewrite (wrap64_small (w * sr))
    by (unfold GoInt.in_int, GoInt.min_int, GoInt.max_int; lia).
  change (GoInt.wrap64 (0 * sr)) with 0.
  destruct (Z.leb_spec (w * sr) 0); [lia|].
  apply (chunkLoop_partition pcm (w * sr) Hwsr Hrange (S (List.length pcm)) [] pcm []);
    [reflexivity | reflexivity | constructor | unfold len; lia].
Qed.

Lemma chunkPCM_partition_witness :
  exists chunks,
    chunkPCM [1; 2; 3; 4; 5; 6; 7] 2 2 0 = Some chunks
    /\ List.concat chunks = [1; 2; 3; 4; 5; 6; 7]
    /\ Forall (fun c => len c = 2 * 2) (removelast chunks)
    /\ Forall (fun c => 0 < len c <= 2 * 2) chunks.
Proof.
  apply (chunkPCM_partition [1; 2; 3; 4; 5; 6; 7] 2 2); [lia | lia | vm_compute; discriminate].
Defined.

Lemma chunkLoop_stuck {A : Type} (pcm : list A) (win ovl : Z) :
  0 < win -> win <= ovl -> ovl <= GoInt.max_int -> win < len pcm ->
  len pcm <= GoInt.max_int ->
  forall fuel out, chunkLoop fuel pcm win ovl 0 out = None.
Proof.
  intros Hwin Hovl Hmax Hlong HLmax. unfold GoInt.max_int in *.
  assert (Hneg : forall fuel out start, start < 0 ->
                   chunkLoop fuel pcm win ovl start out = None).
  { intros [|fuel] out start Hs; [reflexivity|]. cbn [chunkLoop]. cbv zeta.
    pose proof (len_nonneg pcm).
    destruct (Z.ltb_spec start (len pcm)); [|lia].
    unfold slice. destruct (Z.leb_spec 0 start); [lia | reflexivity]. }
  induction fuel as [|fuel IH]; intros out; [reflexivity|].
  cbn [chunkLoop]. cbv zeta.
  destruct (Z.ltb_spec 0 (len pcm)); [|lia].
  assert (Hadd : GoInt.add 0 win = win).
  { apply wrap64_small. unfold GoInt.in_int, GoInt.min_int, GoInt.max_int. lia. }
  rewrite Hadd.
  destruct (Z.ltb_spec (len pcm) win); [lia|].
  rewrite slice_window by lia.
  destruct (Z.eqb_spec win (len pcm)); [lia|].
  assert (Hstep : GoInt.add 0 (GoInt.sub win ovl) = win - ovl).
  { unfold GoInt.add, GoInt.sub.
    rewrite (wrap64_small (win - ovl))
      by (unfold GoInt.in_int, GoInt.min_int, GoInt.max_int; lia).
    apply wrap64_small. unfold GoInt.in_int, GoInt.min_int, GoInt.max_int. lia. }
  rewrite Hstep.
  destruct (Z.eq_dec (win - ovl) 0) as [E|E].
  - rewrite E. apply IH.
  - apply Hneg. lia.
Qed.

(** X12. Called with an overlap that is not below the window, on a buffer
    longer than one window, [chunkPCM] never returns: whatever the number
    of rounds allowed, the loop has not finished (with overlap = window the
    start stays at 0; with a larger overlap the next slice has a negative
    start and panics).  The check of [main] is what keeps it away. *)
Theorem chunkPCM_no_progress {A : Type} (pcm : list A) (sr w o : Z) :
  0 < sr -> 0 < w -> w <= o -> o * sr <= GoInt.max_int ->
  w * sr < len pcm -> len pcm <= GoInt.max_int ->
  (forall fuel, chunkLoop fuel pcm (w * sr) (o * sr) 0 [] = None)
  /\ chunkPCM pcm sr w o = None.
Proof.
  intros Hsr Hw Ho Hmax Hlong HL.
  assert (Hwsr : 0 < w * sr) by nia.
  assert (Hosr : w * sr <= o * sr) by nia.
  assert (Hstuck : forall fuel, chunkLoop fuel pcm (w * sr) (o * sr) 0 [] = None).
  { intros fuel.
    apply (chunkLoop_stuck pcm (w * sr) (o * sr) Hwsr Hosr Hmax Hlong HL fuel []). }
  split; [exact Hstuck|].
  unfold chunkPCM, GoInt.mul. cbv zeta. unfold GoInt.max_int in *.
  rewrite !wrap64_small
    by (unfold GoInt.in_int, GoInt.min_int, GoInt.max_int; lia).
  destruct (Z.leb_spec (w * sr) 0); [lia|].
  apply Hstuck.
Qed.

Lemma chunkPCM_no_progress_witness :
  (forall fuel, chunkLoop fuel [1; 2; 3] (1 * 2) (1 * 2) 0 [] = None)
  /\ chunkPCM [1; 2; 3] 2 1 1 = None.
Proof.
  apply (chunkPCM_no_progress [1; 2; 3] 2 1 1); try lia; vm_compute; congruence.
Defined.

(** X13. A buffer that is not empty and not longer than one window comes
    back as a single chunk whatever the overlap is, also one that is
    negative or not below the window; an empty buffer gives no chunk when
    the window is positive and one empty chunk when it is not. *)
Theorem chunkPCM_single {A : Type} (pcm : list A) (sr w o : Z) :
  (0 < GoInt.mul w sr -> pcm <> [] -> len pcm <= GoInt.mul w sr ->
   chunkPCM pcm sr w o = Some [pcm])
  /\ (0 < GoInt.mul w sr -> chunkPCM (@nil A) sr w o = Some [])
  /\ (GoInt.mul w sr <= 0 -> chunkPCM (@nil A) sr w o = Some [[]]).
Proof.
  unfold chunkPCM. cbv zeta. split; [|split].
  - intros Hwin Hne Hfit.
    destruct (Z.leb_spec (GoInt.mul w sr) 0); [lia|].
    cbn [chunkLoop]. cbv zeta.
    assert (0 < len pcm).
    { destruct pcm; [congruence|]. rewrite len_cons. pose proof (len_nonneg pcm). lia. }
    destruct (Z.ltb_spec 0 (len pcm)); [|lia].
    assert (Hadd : GoInt.add 0 (GoInt.mul w sr) = GoInt.mul w sr).
    { unfold GoInt.add. cbn [Z.add]. unfold GoInt.mul.
      unfold GoInt.wrap64 at 1.
      assert (Hr : - 2 ^ 63 <= GoInt.wrap64 (w * sr) < 2 ^ 63).
      { unfold GoInt.wrap64.
        pose proof (Z.mod_pos_bound (w * sr + 2 ^ 63) (2 ^ 64) ltac:(lia)). lia. }
      rewrite Z.mod_small; lia. }
    rewrite Hadd.
    assert (Hend : (if len pcm <? GoInt.mul w sr then len pcm else GoInt.mul w sr)
                   = len pcm).
    { destruct (Z.ltb_spec (len pcm) (GoInt.mul w sr)); lia. }
    rewrite Hend, slice_prefix by lia. rewrite Z.eqb_refl.
    unfold len. rewrite Nat2Z.id, firstn_all. reflexivity.
  - intros Hwin. destruct (Z.leb_spec (GoInt.mul w sr) 0); [lia | reflexivity].
  - intros Hwin. destruct (Z.leb_spec (GoInt.mul w sr) 0); [reflexivity | lia].
Qed.

Lemma chunkPCM_single_witness :
  chunkPCM [1; 2; 3] 2 2 (-5) = Some [[1; 2; 3]]
  /\ chunkPCM (@nil Z) 2 2 7 = Some []
  /\ chunkPCM (@nil Z) 2 0 7 = Some [[]].
Proof.
  split; [|split].
  - apply (proj1 (chunkPCM_single [1; 2; 3] 2 2 (-5)));
      [reflexivity | discriminate | vm_compute; discriminate].
  - apply (proj1 (proj2 (chunkPCM_single (@nil Z) 2 2 7))). reflexivity.
  - apply (proj2 (proj2 (chunkPCM_single (@nil Z) 2 0 7))). vm_compute; discriminate.
Defined.

(** ** The calls of the engine in chunked mode *)

Lemma chunksLoop_calls
  (engine : list pcmBuffer -> pcmBuffer -> option (list Segment.t))
  (chunks : list pcmBuffer) :
  forall i offset step calls segments,
    match chunksLoop engine chunks i offset step calls segments with
    | (calls', Ok _) =>
      calls' = calls ++ chunks
      /\ (forall k c, nth_error chunks k = Some c ->
            engine (calls ++ firstn k chunks) c <> None)
    | (calls', Fail e) =>
      exists k c,
        e = ErrChunk (i + Z.of_nat k)
        /\ nth_error chunks k = Some c
        /\ calls' = calls ++ firstn (S k) chunks
        /\ engine (calls ++ firstn k chunks) c = None
        /\ (forall k' c', (k' < k)%nat -> nth_error chunks k' = Some c' ->
              engine (calls ++ firstn k' chunks) c' <> None)
    | (_, Crash) => False
    end.
Proof.
  induction chunks as [|c chunks IH]; intros i offset step calls segments;
    cbn [chunksLoop].
  - split; [now rewrite app_nil_r|]. intros [|k] c0; discriminate.
  - unfold transcribe. destruct (engine calls c) as [raw|] eqn:E.
    + specialize (IH (i + 1) (add32 offset step) step (calls ++ [c])
                     (segments ++ map (shift offset) (keepTrimmed raw))).
      destruct (chunksLoop engine chunks (i + 1) (add32 offset step) step
                  (calls ++ [c]) (segments ++ map (shift offset) (keepTrimmed raw)))
        as [calls' [segs|e|]]; [| |exact IH].
      * destruct IH as [Hc Hall]. split; [now rewrite Hc, <- app_assoc|].
        intros [|k] c0 Hk; cbn [nth_error firstn] in *.
        -- injection Hk as <-. rewrite app_nil_r. congruence.
        -- specialize (Hall k c0 Hk). now rewrite <- app_assoc in Hall.
      * destruct IH as (k & c0 & He & Hk & Hc & Hnone & Hbefore).
        exists (S k), c0. cbn [nth_error firstn].
        split; [rewrite He; f_equal; lia|]. split; [exact Hk|].
        split; [now rewrite Hc, <- app_assoc|].
        split; [now rewrite <- app_assoc in Hnone|].
        intros [|k'] c' Hlt Hk'; cbn [nth_error firstn] in *.
        -- injection Hk' as <-. rewrite app_nil_r. congruence.
        -- specialize (Hbefore k' c' ltac:(lia) Hk').
           now rewrite <- app_assoc in Hbefore.
    + exists O, c. cbn [nth_error firstn]. rewrite app_nil_r, Z.add_0_r.
      repeat split; try assumption. intros k' c' Hlt. lia.
Qed.

(** X14. In chunked mode the engine is given the chunks one by one in
    order, each after all the chunks before it.  The loop ends well exactly
    when the engine accepts every chunk, and then every chunk was passed;
    otherwise it stops at the first chunk [k] the engine refuses, with the
    error of chunk [k], after [k + 1] calls and no call for a later chunk.
    The loop itself never panics. *)
Theorem transcribeChunks_calls
  (engine : list pcmBuffer -> pcmBuffer -> option (list Segment.t))
  (win ovl : Z) (chunks : list pcmBuffer) :
  match transcribeChunks engine win ovl chunks with
  | (calls, Ok _) =>
    calls = chunks
    /\ (forall k c, nth_error chunks k = Some c ->
          engine (firstn k chunks) c <> None)
  | (calls, Fail e) =>
    exists k c,
      e = ErrChunk (Z.of_nat k)
      /\ nth_error chunks k = Some c
      /\ calls = firstn (S k) chunks
      /\ engine (firstn k chunks) c = None
      /\ (forall k' c', (k' < k)%nat -> nth_error chunks k' = Some c' ->
            engine (firstn k' chunks) c' <> None)
  | (_, Crash) => False
  end.
Proof.
  unfold transcribeChunks.
  exact (chunksLoop_calls engine chunks 0 zero32
           (of_int32 (GoInt.sub win ovl)) [] []).
Qed.

(** ** The cues come from the segments *)

Lemma cuesLoop_from (mc ml : Z) (segs : list Segment.t) :
  forall idx cues out,
    cuesLoop segs mc ml idx cues = Some out ->
    exists new,
      out = cues ++ new
      /\ len new <= len segs
      /\ Forall (fun c => Cue.Lines c <> [] /\
                          exists s, In s segs
                                    /\ Cue.Start c = Segment.Start s
                                    /\ Cue.End c = Segment.End s
                                    /\ Cue.RawText c = Segment.Text s) new.
Proof.
  induction segs as [|s segs IH]; intros idx cues out; cbn [cuesLoop].
  - intros [= <-]. exists []. rewrite app_nil_r. repeat split; [reflexivity | constructor].
  - destruct (wrapWords (Segment.Text s) mc ml) as [lines|]; [|discriminate].
    rewrite len_cons.
    assert (Hweak : forall new,
              Forall (fun c => Cue.Lines c <> [] /\
                        exists s0, In s0 segs
                                   /\ Cue.Start c = Segment.Start s0
                                   /\ Cue.End c = Segment.End s0
                                   /\ Cue.RawText c = Segment.Text s0) new ->
              Forall (fun c => Cue.Lines c <> [] /\
                        exists s0, In s0 (s :: segs)
                                   /\ Cue.Start c = Segment.Start s0
                                   /\ Cue.End c = Segment.End s0
                                   /\ Cue.RawText c = Segment.Text s0) new).
    { intros new H. eapply Forall_impl; [|exact H]. cbn.
      intros c (Hl & s0 & Hin & Hrest). split; [exact Hl|].
      exists s0. split; [now right | exact Hrest]. }
    destruct (Z.eqb_spec (len lines) 0) as [Hz|Hnz]; intros Hrun.
    + destruct (IH _ _ _ Hrun) as (new & -> & Hlen & Hall).
      exists new. split; [reflexivity|]. split; [lia | now apply Hweak].
    + destruct (IH _ _ _ Hrun) as (new & -> & Hlen & Hall).
      exists (Cue.mk idx (Segment.Start s) (Segment.End s) lines (Segment.Text s)
              :: new).
      split; [now rewrite <- app_assoc|]. split; [rewrite len_cons; lia|].
      constructor; [|now apply Hweak].
      cbn. split; [intros ->; now rewrite len_nil in Hnz|].
      exists s. repeat split. now left.
Qed.

Lemma groups_from (groups : list (list Cue.t)) :
  forall out cues,
    List.concat groups = cues ->
    map groupSpan groups = map (fun o => Some (span o)) out ->
    len out <= len cues
    /\ Forall (fun o => exists c c', In c cues /\ In c' cues
                                     /\ Cue.Start o = Cue.Start c
                                     /\ Cue.End o = Cue.End c') out.
Proof.
  induction groups as [|g groups IH]; intros out cues Hc Hm.
  - destruct out; [|discriminate]. cbn in Hc. subst cues.
    split; [lia | constructor].
  - destruct out as [|o out]; [discriminate|].
    cbn [map List.concat] in *. injection Hm as Hg Hm.
    destruct (IH out (List.concat groups) eq_refl Hm) as [Hlen Hall].
    subst cues. rewrite len_app, len_cons.
    assert (Hweak : Forall (fun o0 => exists c c',
                              In c (g ++ List.concat groups)
                              /\ In c' (g ++ List.concat groups)
                              /\ Cue.Start o0 = Cue.Start c
                              /\ Cue.End o0 = Cue.End c') out).
    { eapply Forall_impl; [|exact Hall]. cbn.
      intros o0 (c & c' & H1 & H2 & H3). exists c, c'.
      repeat split; try apply in_or_app; tauto. }
    destruct g as [|c [|next [|x g]]]; try discriminate;
      cbn [groupSpan] in Hg; unfold span in Hg; injection Hg as Hs He.
    + split; [rewrite len_cons, len_nil; lia|].
      constructor; [|exact Hweak].
      exists c, c. cbn. auto.
    + split; [rewrite !len_cons, len_nil; lia|].
      constructor; [|exact Hweak].
      exists c, next. cbn. auto.
Qed.

(** X15. [segmentsToCues] never makes more cues than there are segments,
    and makes up no time: every cue starts where some segment starts and
    ends where some segment ends. *)
Theorem segmentsToCues_from_segments (segs : list Segment.t) (mc ml : Z)
  (cues : list Cue.t) :
  segmentsToCues segs mc ml = Some cues ->
  len cues <= len segs
  /\ Forall (fun c => exists s s', In s segs /\ In s' segs
                                   /\ Cue.Start c = Segment.Start s
                                   /\ Cue.End c = Segment.End s') cues.
Proof.
  unfold segmentsToCues.
  destruct (cuesLoop segs mc ml 1 []) as [built|] eqn:Hloop; [|discriminate].
  destruct (cuesLoop_from mc ml segs 1 [] built Hloop) as (new & -> & Hlen & Hall).
  cbn [app]. intros Hmerge.
  destruct (mergeShortCues_groups new c0_6) as (out & groups & E & Hc & Hm & _).
  rewrite E in Hmerge. injection Hmerge as ->.
  destruct (groups_from groups cues new Hc Hm) as [Hlen' Hfrom].
  split; [lia|].
  eapply Forall_impl; [|exact Hfrom]. cbn.
  intros o (c & c' & Hin & Hin' & Hs & He).
  rewrite Forall_forall in Hall.
  destruct (Hall c Hin) as (_ & s & Hs1 & Hs2 & _).
  destruct (Hall c' Hin') as (_ & s' & Hs1' & _ & Hs3' & _).
  exists s, s'. repeat split; congruence.
Qed.

Lemma segmentsToCues_from_segments_witness :
  let s1 := Segment.mk (of_int32 0) (of_int32 1) (go "one") in
  let s2 := Segment.mk (of_int32 1) (of_int32 1) (go "  ") in
  let s3 := Segment.mk (of_int32 1) (of_int32 3) (go "two") in
  exists cues,
    segmentsToCues [s1; s2; s3] 42 2 = Some cues
    /\ len cues <= 3
    /\ Forall (fun c => exists s s', In s [s1; s2; s3] /\ In s' [s1; s2; s3]
                                     /\ Cue.Start c = Segment.Start s
                                     /\ Cue.End c = Segment.End s') cues.
Proof.
  intros s1 s2 s3. eexists. split; [reflexivity|].
  apply (segmentsToCues_from_segments [s1; s2; s3] 42 2). reflexivity.
Defined.

(** ** The text of the transcribed segments *)











(** ** Runs that do not panic, and runs that do *)

Lemma chunkPCM_zero {A : Type} (pcm : list A) (sr w : Z) :
  0 < sr -> 0 < w -> w * sr + len pcm <= GoInt.max_int ->
  exists chunks, chunkPCM pcm sr w 0 = Some chunks /\ List.concat chunks = pcm.
Proof.
  intros Hsr Hw Hrange.
  pose proof Hrange as Hrange'. unfold GoInt.max_int in Hrange'.
  pose proof (len_nonneg pcm) as HL.
  assert (Hwsr : 0 < w * sr) by nia.
  unfold chunkPCM, GoInt.mul. cbv zeta.
  rewrite (wrap64_small (w * sr))
    by (unfold GoInt.in_int, GoInt.min_int, GoInt.max_int; lia).
  change (GoInt.wrap64 (0 * sr)) with 0.
  destruct (Z.leb_spec (w * sr) 0); [lia|].
  destruct (chunkLoop_partition pcm (w * sr) Hwsr Hrange (S (List.length pcm))
              [] pcm []) as (res & E & Hc & _);
    [reflexivity | reflexivity | constructor | unfold len; lia |].
  exists res. now split.
Qed.

Lemma transcribeChunks_never_crashes
  (engine : list pcmBuffer -> pcmBuffer -> option (list Segment.t))
  (win ovl : Z) (chunks : list pcmBuffer) :
  snd (transcribeChunks engine win ovl chunks) <> Crash.
Proof.
  unfold transcribeChunks.
  pose proof (chunksLoop_calls engine chunks 0 zero32
                (of_int32 (GoInt.sub win ovl)) [] []) as H.
  destruct (chunksLoop engine chunks 0 zero32 (of_int32 (GoInt.sub win ovl)) [] [])
    as [calls [segments|e|]]; cbn [snd]; [discriminate | discriminate | contradiction].
Qed.

Lemma chunkPCM_returns {A : Type} (pcm : list A) (sr w o : Z) :
  0 < sr -> 0 <= o -> o < w -> w * sr + len pcm <= GoInt.max_int ->
  exists chunks, chunkPCM pcm sr w o = Some chunks.
Proof.
  intros Hsr Ho Hw Hrange.
  destruct (Z.eq_dec o 0) as [->|Hne].
  - destruct (chunkPCM_zero pcm sr w Hsr Hw Hrange) as (chunks & E & _).
    now exists chunks.
  - pose proof Hrange as Hrange'. unfold GoInt.max_int in Hrange'.
    pose proof (len_nonneg pcm) as HL.
    assert (Hosr : 0 < o * sr) by nia.
    assert (Hwsr : o * sr < w * sr) by nia.
    unfold chunkPCM, GoInt.mul. cbv zeta.
    rewrite !wrap64_small
      by (unfold GoInt.in_int, GoInt.min_int, GoInt.max_int; lia).
    destruct (Z.leb_spec (w * sr) 0) as [|_]; [lia|].
    destruct pcm as [|x pcm'] eqn:Hpcm; [now exists []|].
    rewrite <- Hpcm in *.
    assert (0 < len pcm) by (rewrite Hpcm, len_cons; pose proof (len_nonneg pcm'); lia).
    destruct (chunkLoop_run pcm (w * sr) (o * sr) Hosr Hwsr Hrange
                            (S (List.length pcm)) 0 [])
      as (m & E & _); try (unfold len in *; lia).
    cbn [Z.mul] in E. rewrite E. eauto.
Qed.

Lemma segmentsToCues_returns (segs : list Segment.t) (mc ml : Z) :
  0 <= mc -> 0 <= ml -> exists cues, segmentsToCues segs mc ml = Some cues.
Proof.
  intros Hmc Hml. unfold segmentsToCues.
  destruct (cuesLoop segs mc ml 1 []) as [built|] eqn:Hloop.
  - destruct (mergeShortCues_groups built c0_6) as (out & _ & E & _).
    now exists out.
  - apply cuesLoop_none in Hloop. lia.
Qed.

(** X17. With limits that are not negative the run never panics and never
    hangs, in whole-file mode, and in chunked mode when the overlap is not
    negative and [windowSec * 16000 + L] is within the range of [int]: it
    ends with the captions or with one of the errors of [fail]. *)
Theorem run_no_crash
  (engine : list pcmBuffer -> pcmBuffer -> option (list Segment.t))
  (cfg : Config) (pcm : pcmBuffer) :
  0 <= maxChars cfg -> 0 <= maxLines cfg ->
  windowSec cfg <= 0
  \/ (0 <= overlapSec cfg
      /\ windowSec cfg * 16000 + len pcm <= GoInt.max_int) ->
  snd (run engine cfg pcm) <> Crash.
Proof.
  intros Hmc Hml Hmode. unfold run, collectSegments.
  assert (Hcues : forall (calls : list pcmBuffer) segments,
            snd (match segmentsToCues segments (maxChars cfg) (maxLines cfg) with
                 | None => (calls, @Crash gostring)
                 | Some cues =>
                   (calls, Ok (if formatSRT cfg then writeSRT cues else writeVTT cues))
                 end) <> Crash).
  { intros calls segments.
    destruct (segmentsToCues_returns segments _ _ Hmc Hml) as [cues ->].
    discriminate. }
  destruct (Z.leb_spec (windowSec cfg) 0) as [Hw|Hw].
  - unfold transcribe. destruct (engine [] pcm); [apply Hcues | discriminate].
  - destruct Hmode as [|[Ho Hrange]]; [lia|].
    destruct (Z.leb_spec (windowSec cfg) (overlapSec cfg)); [discriminate|].
    destruct (chunkPCM_returns pcm 16000 (windowSec cfg) (overlapSec cfg))
      as [chunks ->]; try lia.
    pose proof (transcribeChunks_never_crashes engine (windowSec cfg)
                  (overlapSec cfg) chunks) as Hloop.
    destruct (transcribeChunks engine (windowSec cfg) (overlapSec cfg) chunks)
      as [calls [segments|e|]]; [apply Hcues | discriminate | contradiction].
Qed.

Lemma run_no_crash_witness :
  let engine := fun (_ : list pcmBuffer) (_ : pcmBuffer) =>
                  Some [Segment.mk (of_int32 0) (of_int32 1) (go "hi")] in
  snd (run engine (mkConfig 1 0 42 2 false) [zero32; zero32]) <> Crash.
Proof.
  intros engine.
  apply (run_no_crash engine (mkConfig 1 0 42 2 false) [zero32; zero32]);
    cbn; [lia | lia |].
  right. split; [lia | vm_compute; discriminate].
Defined.

(** X18. With a negative [maxLines] [segmentsToCues] panics as soon as
    there is one segment, whatever its text; without any segment it
    returns no cue. *)
Theorem segmentsToCues_negative_lines (segs : list Segment.t) (mc ml : Z) :
  ml < 0 ->
  segmentsToCues segs mc ml = match segs with [] => Some [] | _ => None end.
Proof.
  intros Hml. unfold segmentsToCues.
  destruct segs as [|s segs]; [reflexivity|].
  cbn [cuesLoop]. unfold wrapWords. cbv zeta.
  now rewrite wrapLoop_negative.
Qed.

Lemma segmentsToCues_negative_lines_witness :
  segmentsToCues [Segment.mk (of_int32 0) (of_int32 1) (go "hi")] 42 (-1) = None.
Proof.
  apply (segmentsToCues_negative_lines
           [Segment.mk (of_int32 0) (of_int32 1) (go "hi")] 42 (-1)). lia.
Defined.
